(** * Semaphore.ts: a reader-writer lock on one shared 32-bit word

    A shallow embedding of [src/Semaphore.ts].  The class keeps its whole
    shared state in the first [Int32Array] element of an [ArrayBuffer]:

    - [0]      unlocked,
    - [-1]     write locked,
    - [x > 0]  read locked by [x] readers,

    and every handle keeps two private flags, [__haveWriteLock] and
    [__haveReadLock].  The four methods are loops around
    [Atomics.compareExchange], [Atomics.wait] and [Atomics.notify].

    The embedding has three layers:

    - the memory: an [ArrayBuffer] as its bytes, the [Int32Array] view and
      the three [Atomics] calls the class uses;
    - the methods, cut at their [Atomics] calls: a [frame] names the call a
      method is about to make, [step] performs it together with the local
      code that follows it up to the next call;
    - two ways of running them: [exec], one handle alone on the buffer, and
      [sys_step], any number of handles of one buffer interleaved. *)

From Stdlib Require Import ZArith Strings.String Strings.Byte Lia.
From stdpp Require Import base option list relations.

Local Open Scope Z_scope.

(** ** Exceptions

    The class throws plain [Error] objects told apart by their message
    only; the runtime adds the [RangeError] and [TypeError] of typed arrays
    and [Atomics]. *)

Inductive exn :=
| Error (message : string)
| RangeError
| TypeError.

Definition result (A : Type) : Type := exn + A.

(** The two kinds of failure of the lock.  All messages that report a
    contradiction between the shared word and the handle start with
    [Semaphore corrupted:]; every other message reports a misuse of the
    handle by its caller. *)

Inductive error_kind := ProtocolViolation | Corruption.

Definition kind_of (e : exn) : option error_kind :=
  match e with
  | Error message =>
      if String.prefix "Semaphore corrupted:" message
      then Some Corruption else Some ProtocolViolation
  | RangeError | TypeError => None
  end.

(** ** 32-bit integers in memory *)

(** [ToInt32] of ECMAScript on an integral number: reduce modulo [2^32],
    then read the result as a signed value. *)
Definition ToInt32 (x : Z) : Z :=
  let int32bit := x mod 2 ^ 32 in
  if 2 ^ 31 <=? int32bit then int32bit - 2 ^ 32 else int32bit.

Definition Z_of_byte (b : byte) : Z := Z.of_N (Byte.to_N b).

Definition byte_of_Z (z : Z) : byte :=
  default x00 (Byte.of_N (Z.to_N (z mod 256))).

(** The four bytes of an element, least significant first (the byte order
    of the platforms the class runs on). *)
Definition Int32_bytes (v : Z) : list byte :=
  let u := v mod 2 ^ 32 in
  [byte_of_Z u; byte_of_Z (u / 2 ^ 8); byte_of_Z (u / 2 ^ 16); byte_of_Z (u / 2 ^ 24)].

Definition Int32_of_bytes (b0 b1 b2 b3 : byte) : Z :=
  ToInt32 (Z_of_byte b0 + 2 ^ 8 * Z_of_byte b1
           + 2 ^ 16 * Z_of_byte b2 + 2 ^ 24 * Z_of_byte b3).

(** ** ArrayBuffer and Int32Array *)

(** An [ArrayBuffer] or a [SharedArrayBuffer]: its bytes, whether it is
    the shared kind, whether it was made resizable (an [ArrayBuffer] or a
    [SharedArrayBuffer] created with a [maxByteLength]), and whether it
    has been detached (an [ArrayBuffer] that was transferred away; its
    bytes are gone).  The buffer is the one object all handles of a lock
    refer to ([ptr], and the view [int32ArrayView] over it); the model
    passes it explicitly. *)
Record ArrayBuffer := {
  isShared : bool;
  isResizable : bool;
  isDetached : bool;
  contents : list byte
}.

(** [arrayBuffer.byteLength]: [0] once detached. *)
Definition byteLength (buf : ArrayBuffer) : nat :=
  if isDetached buf then 0%nat else length (contents buf).

(** The constructor argument of [Semaphore.new]. *)
Inductive arrayBufferConstructor := SharedArrayBufferCtor | ArrayBufferCtor.

(** [new arrayBufferConstructor(byteLength)]: zero-filled, of fixed
    length (no options are passed), attached. *)
Definition construct (c : arrayBufferConstructor) (len : nat) : ArrayBuffer :=
  {| isShared := match c with SharedArrayBufferCtor => true | ArrayBufferCtor => false end;
     isResizable := false;
     isDetached := false;
     contents := replicate len x00 |}.

(** [new Int32Array(arrayBuffer)], with no offset and no length: a
    [TypeError] on a detached buffer; on a resizable buffer a view that
    tracks the length of the buffer, whatever that length is; on a buffer
    of fixed length a view over the whole buffer, or a [RangeError] when
    the byte length is not a multiple of the element size.  The result is
    the number of elements. *)
Definition Int32Array (buf : ArrayBuffer) : result nat :=
  if isDetached buf then inl TypeError
  else if isResizable buf then inr (byteLength buf / 4)%nat
  else if (byteLength buf mod 4 =? 0)%nat then inr (byteLength buf / 4)%nat
  else inl RangeError.

(** Element [index] of the view, [None] out of range; a detached buffer
    has no element. *)
Definition view_get (buf : ArrayBuffer) (index : nat) : option Z :=
  if isDetached buf then None
  else match drop (4 * index) (contents buf) with
       | b0 :: b1 :: b2 :: b3 :: _ => Some (Int32_of_bytes b0 b1 b2 b3)
       | _ => None
       end.

Definition view_set (buf : ArrayBuffer) (index : nat) (v : Z) : ArrayBuffer :=
  {| isShared := isShared buf;
     isResizable := isResizable buf;
     isDetached := isDetached buf;
     contents := take (4 * index) (contents buf) ++ Int32_bytes v
                 ++ drop (4 * index + 4) (contents buf) |}.

(** ** Atomics *)

(** [Atomics.compareExchange(view, index, expected, replacement)]: a
    [TypeError] when the buffer of the view is detached, a [RangeError]
    out of range; otherwise the old value is returned, and the element is
    overwritten when the old value is the expected one. *)
Definition Atomics_compareExchange (buf : ArrayBuffer) (index : nat)
    (expected replacement : Z) : result (Z * ArrayBuffer) :=
  if isDetached buf then inl TypeError
  else match view_get buf index with
       | None => inl RangeError
       | Some old =>
           if old =? ToInt32 expected
           then inr (old, view_set buf index replacement)
           else inr (old, buf)
       end.

Inductive wait_result := not_equal | asleep.

(** [Atomics.wait(view, index, value)] without a timeout, called where
    the runtime lets the caller sleep (any thread of Node, a worker
    elsewhere): a [TypeError] on a detached buffer and on a buffer that is
    not shared, a [RangeError] out of range, [not_equal] at once when the
    element differs from [value]; otherwise the caller is put to sleep
    until a [notify] on the element. *)
Definition Atomics_wait (buf : ArrayBuffer) (index : nat) (value : Z)
    : result wait_result :=
  if isDetached buf then inl TypeError
  else if negb (isShared buf) then inl TypeError
  else match view_get buf index with
       | None => inl RangeError
       | Some w => if w =? ToInt32 value then inr asleep else inr not_equal
       end.

(** [Atomics.notify(view, index)]: a [TypeError] on a detached buffer, a
    [RangeError] out of range; otherwise every sleeper on the element is
    woken (the count defaults to all). *)
Definition Atomics_notify (buf : ArrayBuffer) (index : nat) : result unit :=
  if isDetached buf then inl TypeError
  else match view_get buf index with
       | None => inl RangeError
       | Some _ => inr tt
       end.

(** ** The class *)

Definition WRITE_LOCKED : Z := -1.
Definition UNLOCKED : Z := 0.
Definition BYTE_OFFSET : nat := 0.

(** The private state of a handle.  Its [ptr] and [int32ArrayView] are
    references to the buffer, which the operations below take as an
    argument. *)
Record Semaphore := {
  haveWriteLock : bool;
  haveReadLock : bool
}.

(** The private constructor: builds the view, which may throw, and leaves
    both flags at their default. *)
Definition constructor (arrayBuffer : ArrayBuffer) : result Semaphore :=
  match Int32Array arrayBuffer with
  | inl e => inl e
  | inr _ => inr {| haveWriteLock := false; haveReadLock := false |}
  end.

(** [Semaphore.new(arrayBufferConstructor)]: the fresh buffer and the
    handle over it. *)
Definition new (c : arrayBufferConstructor) : result (ArrayBuffer * Semaphore) :=
  let arrayBuffer := construct c 4 in
  match constructor arrayBuffer with
  | inl e => inl e
  | inr s => inr (arrayBuffer, s)
  end.

(** [Semaphore.from(arrayBuffer)]. *)
Definition from (arrayBuffer : ArrayBuffer) : result Semaphore :=
  constructor arrayBuffer.

(** The lock word, as the class reads it. *)
Definition word (buf : ArrayBuffer) : option Z := view_get buf BYTE_OFFSET.

Inductive method := WriteLock | WriteUnlock | ReadLock | ReadUnlock.

(** The [Atomics] call a method is about to make, with the local variable
    that is live there. *)
Inductive frame :=
| writeLock_compareExchange
| writeLock_wait (lockState : Z)
| writeLock_notify
| writeUnlock_compareExchange
| writeUnlock_notify
| readLock_compareExchange (lockState : Z)
| readLock_wait
| readLock_notify
| readUnlock_compareExchange (lockState : Z)
| readUnlock_notify.

(** The guards at the head of each method: an exception, or the first
    [Atomics] call. *)
Definition enter (m : method) (s : Semaphore) : result frame :=
  match m with
  | WriteLock =>
      if haveReadLock s then
        inl (Error "Cannot acquire write lock without releasing read lock first")
      else if haveWriteLock s then
        inl (Error "Cannot acquire write lock while already holding write lock")
      else inr writeLock_compareExchange
  | WriteUnlock =>
      if negb (haveWriteLock s) then
        inl (Error "Cannot release write lock without acquiring write lock first")
      else if haveReadLock s then
        inl (Error "Semaphore corrupted: write and read lock held at the same time")
      else inr writeUnlock_compareExchange
  | ReadLock =>
      if haveWriteLock s then
        inl (Error "Cannot acquire read lock without releasing write lock first")
      else if haveReadLock s then
        inl (Error "Cannot acquire read lock while already holding read lock")
      else inr (readLock_compareExchange UNLOCKED)
  | ReadUnlock =>
      if negb (haveReadLock s) then
        inl (Error "Cannot release read lock without acquiring read lock first")
      else if haveWriteLock s then
        inl (Error "Semaphore corrupted: write and read lock held at the same time")
      else inr (readUnlock_compareExchange 1)
  end.

(** What one [Atomics] call and the local code after it lead to. *)
Inductive step_result :=
| Goto (buf : ArrayBuffer) (f : frame)   (* on to the next call *)
| Suspend (f : frame)                    (* asleep in [Atomics.wait]; resumes at [f] *)
| Return (s : Semaphore)                 (* the method returns *)
| Throw (e : exn).                       (* the method throws *)

Definition step (buf : ArrayBuffer) (s : Semaphore) (f : frame) : step_result :=
  match f with
  | writeLock_compareExchange =>
      match Atomics_compareExchange buf BYTE_OFFSET UNLOCKED WRITE_LOCKED with
      | inl e => Throw e
      | inr (lockState, buf') =>
          if lockState =? UNLOCKED then Goto buf' writeLock_notify
          else Goto buf' (writeLock_wait lockState)
      end
  | writeLock_wait lockState =>
      match Atomics_wait buf BYTE_OFFSET lockState with
      | inl e => Throw e
      | inr not_equal => Goto buf writeLock_compareExchange
      | inr asleep => Suspend writeLock_compareExchange
      end
  | writeLock_notify =>
      match Atomics_notify buf BYTE_OFFSET with
      | inl e => Throw e
      | inr _ => Return {| haveWriteLock := true; haveReadLock := haveReadLock s |}
      end
  | writeUnlock_compareExchange =>
      match Atomics_compareExchange buf BYTE_OFFSET WRITE_LOCKED UNLOCKED with
      | inl e => Throw e
      | inr (old, buf') =>
          if old =? WRITE_LOCKED then Goto buf' writeUnlock_notify
          else Throw (Error "Semaphore corrupted: holding write lock, but unable to unlock")
      end
  | writeUnlock_notify =>
      match Atomics_notify buf BYTE_OFFSET with
      | inl e => Throw e
      | inr _ => Return {| haveWriteLock := false; haveReadLock := haveReadLock s |}
      end
  | readLock_compareExchange lockState =>
      match Atomics_compareExchange buf BYTE_OFFSET lockState (lockState + 1) with
      | inl e => Throw e
      | inr (newLockState, buf') =>
          if newLockState =? lockState then Goto buf' readLock_notify
          else if newLockState =? -1 then Goto buf' readLock_wait
          else Goto buf' (readLock_compareExchange newLockState)
      end
  | readLock_wait =>
      match Atomics_wait buf BYTE_OFFSET WRITE_LOCKED with
      | inl e => Throw e
      | inr not_equal => Goto buf (readLock_compareExchange UNLOCKED)
      | inr asleep => Suspend (readLock_compareExchange UNLOCKED)
      end
  | readLock_notify =>
      match Atomics_notify buf BYTE_OFFSET with
      | inl e => Throw e
      | inr _ => Return {| haveWriteLock := haveWriteLock s; haveReadLock := true |}
      end
  | readUnlock_compareExchange lockState =>
      match Atomics_compareExchange buf BYTE_OFFSET lockState (lockState - 1) with
      | inl e => Throw e
      | inr (newLockState, buf') =>
          if newLockState =? lockState then Goto buf' readUnlock_notify
          else if newLockState =? WRITE_LOCKED then
            Throw (Error "Semaphore corrupted: Read lock was overridden by write lock")
          else Goto buf' (readUnlock_compareExchange newLockState)
      end
  | readUnlock_notify =>
      match Atomics_notify buf BYTE_OFFSET with
      | inl e => Throw e
      | inr _ => Return {| haveWriteLock := haveWriteLock s; haveReadLock := false |}
      end
  end.

(** The handle a method returns with from each of the four [notify]
    frames, where the flag is written. *)
Definition returns (s : Semaphore) (f : frame) : option Semaphore :=
  match f with
  | writeLock_notify => Some {| haveWriteLock := true; haveReadLock := haveReadLock s |}
  | writeUnlock_notify => Some {| haveWriteLock := false; haveReadLock := haveReadLock s |}
  | readLock_notify => Some {| haveWriteLock := haveWriteLock s; haveReadLock := true |}
  | readUnlock_notify => Some {| haveWriteLock := haveWriteLock s; haveReadLock := false |}
  | _ => None
  end.

(** The [Atomics] call made at a frame, for traces. *)
Inductive access :=
| CompareExchange (expected replacement : Z)
| Wait (value : Z)
| Notify.

Definition access_of (f : frame) : access :=
  match f with
  | writeLock_compareExchange => CompareExchange UNLOCKED WRITE_LOCKED
  | writeLock_wait lockState => Wait lockState
  | writeUnlock_compareExchange => CompareExchange WRITE_LOCKED UNLOCKED
  | readLock_compareExchange lockState => CompareExchange lockState (lockState + 1)
  | readLock_wait => Wait WRITE_LOCKED
  | readUnlock_compareExchange lockState => CompareExchange lockState (lockState - 1)
  | writeLock_notify | writeUnlock_notify | readLock_notify | readUnlock_notify => Notify
  end.

(** ** One handle alone on the buffer *)

(** How a call ends when nothing else touches the buffer: with the buffer
    and the handle as the call left them.  A handle put to sleep stays
    asleep, since no one is there to notify it. *)
Inductive outcome :=
| Returned (buf : ArrayBuffer) (s : Semaphore)
| Thrown (e : exn) (buf : ArrayBuffer) (s : Semaphore)
| Blocked (buf : ArrayBuffer) (s : Semaphore)
| OutOfFuel (buf : ArrayBuffer) (s : Semaphore).

Fixpoint exec (fuel : nat) (buf : ArrayBuffer) (s : Semaphore) (f : frame)
    : list access * outcome :=
  match fuel with
  | O => ([], OutOfFuel buf s)
  | S fuel' =>
      match step buf s f with
      | Goto buf' f' =>
          let (trace, o) := exec fuel' buf' s f' in (access_of f :: trace, o)
      | Suspend _ => ([access_of f], Blocked buf s)
      | Return s' => ([access_of f], Returned buf s')
      | Throw e => ([access_of f], Thrown e buf s)
      end
  end.

(** A method call: the guards, then the loop.  The result is the trace of
    the [Atomics] calls made and the outcome. *)
Definition call (fuel : nat) (m : method) (buf : ArrayBuffer) (s : Semaphore)
    : list access * outcome :=
  match enter m s with
  | inl e => ([], Thrown e buf s)
  | inr f => exec fuel buf s f
  end.

Definition writeLock fuel := call fuel WriteLock.
Definition writeUnlock fuel := call fuel WriteUnlock.
Definition readLock fuel := call fuel ReadLock.
Definition readUnlock fuel := call fuel ReadUnlock.

Definition buffer_of (o : outcome) : ArrayBuffer :=
  match o with
  | Returned buf _ | Thrown _ buf _ | Blocked buf _ | OutOfFuel buf _ => buf
  end.

Definition handle_of (o : outcome) : Semaphore :=
  match o with
  | Returned _ s | Thrown _ _ s | Blocked _ s | OutOfFuel _ s => s
  end.

(** A sequence of calls on one handle.  The caller goes on after a return
    and after an exception alike (it may catch it); it cannot go on after
    a call that never comes back. *)
Fixpoint calls (fuel : nat) (ms : list method) (buf : ArrayBuffer) (s : Semaphore)
    : list outcome :=
  match ms with
  | [] => []
  | m :: ms' =>
      let o := snd (call fuel m buf s) in
      o :: match o with
           | Returned buf' s' | Thrown _ buf' s' => calls fuel ms' buf' s'
           | Blocked _ _ | OutOfFuel _ _ => []
           end
  end.

(** The protocol a caller is asked to follow on one handle: acquire only
    with nothing held, release only what is held, and hold nothing at the
    end. *)
Inductive held := Nothing | WriteHeld | ReadHeld.

Definition protocol_next (h : held) (m : method) : option held :=
  match h, m with
  | Nothing, WriteLock => Some WriteHeld
  | Nothing, ReadLock => Some ReadHeld
  | WriteHeld, WriteUnlock => Some Nothing
  | ReadHeld, ReadUnlock => Some Nothing
  | _, _ => None
  end.

Fixpoint respects (h : held) (ms : list method) : bool :=
  match ms with
  | [] => match h with Nothing => true | _ => false end
  | m :: ms' =>
      match protocol_next h m with
      | Some h' => respects h' ms'
      | None => false
      end
  end.

Definition is_release (m : method) : bool :=
  match m with
  | WriteUnlock | ReadUnlock => true
  | WriteLock | ReadLock => false
  end.

(** ** Several handles on one buffer *)

(** What the execution context that owns a handle is doing: between two
    calls, inside a method at a frame, or asleep in [Atomics.wait] with the
    frame it resumes at. *)
Inductive activity := Idle | Running (f : frame) | Sleeping (f : frame).

Record agent := {
  handle : Semaphore;
  doing : activity
}.

Record system := {
  memory : ArrayBuffer;
  agents : list agent
}.

Definition after_enter (s : Semaphore) (r : result frame) : agent :=
  match r with
  | inl _ => {| handle := s; doing := Idle |}
  | inr f => {| handle := s; doing := Running f |}
  end.

Definition after_step (s : Semaphore) (r : step_result) : agent :=
  match r with
  | Goto _ f => {| handle := s; doing := Running f |}
  | Suspend f => {| handle := s; doing := Sleeping f |}
  | Return s' => {| handle := s'; doing := Idle |}
  | Throw _ => {| handle := s; doing := Idle |}
  end.

Definition memory_after (buf : ArrayBuffer) (r : step_result) : ArrayBuffer :=
  match r with
  | Goto buf' _ => buf'
  | Suspend _ | Return _ | Throw _ => buf
  end.

(** A [notify] that went through wakes every sleeper. *)
Definition notified (f : frame) (r : step_result) : bool :=
  match access_of f, r with
  | Notify, Return _ => true
  | _, _ => false
  end.

Definition wake (a : agent) : agent :=
  match doing a with
  | Sleeping f => {| handle := handle a; doing := Running f |}
  | Idle | Running _ => a
  end.

(** Interleaving semantics: one agent at a time starts a method or makes
    its next [Atomics] call; the calls are atomic and sequentially
    consistent. *)
Inductive sys_step : system -> system -> Prop :=
| sys_call sigma i a m :
    agents sigma !! i = Some a ->
    doing a = Idle ->
    sys_step sigma
      {| memory := memory sigma;
         agents := <[i := after_enter (handle a) (enter m (handle a))]> (agents sigma) |}
| sys_run sigma i a f :
    agents sigma !! i = Some a ->
    doing a = Running f ->
    sys_step sigma
      (let r := step (memory sigma) (handle a) f in
       {| memory := memory_after (memory sigma) r;
          agents := <[i := after_step (handle a) r]>
                      (if notified f r then wake <$> agents sigma else agents sigma) |}).

(** [n] handles on the buffer, each as [new] or [from] returns it. *)
Definition initial (buf : ArrayBuffer) (s : Semaphore) (n : nat) : system :=
  {| memory := buf; agents := replicate n {| handle := s; doing := Idle |} |}.

Definition reachable (sigma0 sigma : system) : Prop := rtc sys_step sigma0 sigma.

(** An agent's write acquisition is outstanding from the
    [compareExchange] that took the word from [0] to [-1] until the one
    that puts it back; likewise for a read acquisition. *)
Definition write_outstanding (a : agent) : bool :=
  match doing a with
  | Running writeLock_notify => true
  | Running writeUnlock_notify => false
  | _ => haveWriteLock (handle a)
  end.

Definition read_outstanding (a : agent) : bool :=
  match doing a with
  | Running readLock_notify => true
  | Running readUnlock_notify => false
  | _ => haveReadLock (handle a)
  end.

Fixpoint count (p : agent -> bool) (l : list agent) : Z :=
  match l with
  | [] => 0
  | a :: l' => (if p a then 1 else 0) + count p l'
  end.

Definition writers (sigma : system) : Z := count write_outstanding (agents sigma).
Definition readers (sigma : system) : Z := count read_outstanding (agents sigma).

(** ** Notions used in the statements *)

(** Handles by what they hold; [fresh] is the handle the constructor
    returns. *)
Definition fresh : Semaphore := {| haveWriteLock := false; haveReadLock := false |}.
Definition holding_read : Semaphore := {| haveWriteLock := false; haveReadLock := true |}.
Definition holding_write : Semaphore := {| haveWriteLock := true; haveReadLock := false |}.

(** The buffer of [Semaphore.new()], with the lock word set to [n]. *)
Definition buffer_at (n : Z) : ArrayBuffer :=
  view_set (construct SharedArrayBufferCtor 4) BYTE_OFFSET n.

(** The calls a handle can tell are wrong from its own flags. *)
Definition misuse (m : method) (s : Semaphore) : bool :=
  match m with
  | WriteLock => haveReadLock s || haveWriteLock s
  | ReadLock => haveWriteLock s || haveReadLock s
  | WriteUnlock => negb (haveWriteLock s)
  | ReadUnlock => negb (haveReadLock s)
  end.

(** What the buffer and the handle look like in each state of the
    protocol. *)
Definition consistent (h : held) (buf : ArrayBuffer) (s : Semaphore) : Prop :=
  match h with
  | Nothing => word buf = Some 0 /\ s = fresh
  | WriteHeld => word buf = Some (-1) /\ s = holding_write
  | ReadHeld => word buf = Some 1 /\ s = holding_read
  end.

(** The buffer and the handle after a sequence of calls. *)
Definition final (buf : ArrayBuffer) (s : Semaphore) (os : list outcome)
    : ArrayBuffer * Semaphore :=
  match last os with
  | Some o => (buffer_of o, handle_of o)
  | None => (buf, s)
  end.

(** The invariant of a handle: not both flags at once. *)
Definition flags_ok (s : Semaphore) : bool :=
  negb (haveWriteLock s && haveReadLock s).

(** The method a frame belongs to. *)
Definition method_of (f : frame) : method :=
  match f with
  | writeLock_compareExchange | writeLock_wait _ | writeLock_notify => WriteLock
  | writeUnlock_compareExchange | writeUnlock_notify => WriteUnlock
  | readLock_compareExchange _ | readLock_wait | readLock_notify => ReadLock
  | readUnlock_compareExchange _ | readUnlock_notify => ReadUnlock
  end.

(** The flags let the guards of the method through. *)
Definition passes (m : method) (s : Semaphore) : bool :=
  match enter m s with
  | inl _ => false
  | inr _ => true
  end.

(** The value a read loop carries is one it has read from the word, or its
    initial guess; it is never [-1]. *)
Definition lockState_ok (f : frame) : Prop :=
  match f with
  | readLock_compareExchange l | readUnlock_compareExchange l =>
      - 2 ^ 31 <= l < 2 ^ 31 /\ l <> -1
  | _ => True
  end.

Definition is_notify (f : frame) : bool :=
  match access_of f with
  | Notify => true
  | _ => false
  end.

(** An agent between calls has consistent flags; inside a method its
    flags are those the guards let through; it sleeps only at a frame
    where a loop starts over. *)
Definition wf_agent (a : agent) : Prop :=
  match doing a with
  | Idle => flags_ok (handle a) = true
  | Running f => passes (method_of f) (handle a) = true /\ lockState_ok f
  | Sleeping f =>
      passes (method_of f) (handle a) = true /\ lockState_ok f /\ is_notify f = false
  end.

(** What one [Atomics] call of an agent does to the word and to the
    agent's acquisitions. *)
Inductive effect (w w' : Z) (a a' : agent) : Prop :=
| eff_none :
    w' = w ->
    write_outstanding a' = write_outstanding a ->
    read_outstanding a' = read_outstanding a ->
    effect w w' a a'
| eff_write_acquire :
    w = 0 -> w' = -1 ->
    write_outstanding a = false -> write_outstanding a' = true ->
    read_outstanding a = false -> read_outstanding a' = false ->
    effect w w' a a'
| eff_write_release :
    w = -1 -> w' = 0 ->
    write_outstanding a = true -> write_outstanding a' = false ->
    read_outstanding a = false -> read_outstanding a' = false ->
    effect w w' a a'
| eff_read_acquire :
    w <> -1 -> w' = ToInt32 (w + 1) ->
    write_outstanding a = false -> write_outstanding a' = false ->
    read_outstanding a = false -> read_outstanding a' = true ->
    effect w w' a a'
| eff_read_release :
    w <> -1 -> w' = ToInt32 (w - 1) ->
    write_outstanding a = false -> write_outstanding a' = false ->
    read_outstanding a = true -> read_outstanding a' = false ->
    effect w w' a a'.

(** The invariant of the lock: the word is [-1] with exactly one write
    acquisition and no read acquisition outstanding, or it is the number
    of read acquisitions outstanding, with no write acquisition. *)
Definition lock_inv (sigma : system) : Prop :=
  Forall wf_agent (agents sigma) /\
  Z.of_nat (length (agents sigma)) < 2 ^ 31 /\
  exists w, word (memory sigma) = Some w /\
    ((w = -1 /\ writers sigma = 1 /\ readers sigma = 0) \/
     (w = readers sigma /\ writers sigma = 0)).

(** Two handles; both have called [writeLock], the first has won the
    [compareExchange]. *)
Definition one_writer : system :=
  {| memory := buffer_at (-1);
     agents := [ {| handle := fresh; doing := Running writeLock_notify |};
                 {| handle := fresh; doing := Running writeLock_compareExchange |} ] |}.

(** ** A call without interference, in closed form *)

(** What [Atomics.wait] leads to when the word holds the value waited on
    and nobody else is there: sleep for ever on a shared buffer, a
    [TypeError] on one that is not shared. *)
Definition stuck (buf : ArrayBuffer) (s : Semaphore) : outcome :=
  if isShared buf then Blocked buf s else Thrown TypeError buf s.

(** The exception of an [Atomics] call on a buffer that has no lock
    word: the buffer is detached, or it has fewer than four bytes. *)
Definition no_word (buf : ArrayBuffer) : exn :=
  if isDetached buf then TypeError else RangeError.

(** The trace and the outcome of a method body started on a buffer nobody
    else touches, by the value of the lock word. *)
Definition alone_body (m : method) (buf : ArrayBuffer) (s : Semaphore)
    : list access * outcome :=
  match m, word buf with
  | WriteLock, None =>
      ([CompareExchange UNLOCKED WRITE_LOCKED], Thrown (no_word buf) buf s)
  | WriteLock, Some w =>
      if w =? 0 then
        ([CompareExchange UNLOCKED WRITE_LOCKED; Notify],
         Returned (view_set buf BYTE_OFFSET WRITE_LOCKED)
                  {| haveWriteLock := true; haveReadLock := haveReadLock s |})
      else ([CompareExchange UNLOCKED WRITE_LOCKED; Wait w], stuck buf s)
  | WriteUnlock, None =>
      ([CompareExchange WRITE_LOCKED UNLOCKED], Thrown (no_word buf) buf s)
  | WriteUnlock, Some w =>
      if w =? -1 then
        ([CompareExchange WRITE_LOCKED UNLOCKED; Notify],
         Returned (view_set buf BYTE_OFFSET UNLOCKED)
                  {| haveWriteLock := false; haveReadLock := haveReadLock s |})
      else ([CompareExchange WRITE_LOCKED UNLOCKED],
            Thrown (Error "Semaphore corrupted: holding write lock, but unable to unlock")
                   buf s)
  | ReadLock, None =>
      ([CompareExchange UNLOCKED (UNLOCKED + 1)], Thrown (no_word buf) buf s)
  | ReadLock, Some w =>
      if w =? 0 then
        ([CompareExchange UNLOCKED (UNLOCKED + 1); Notify],
         Returned (view_set buf BYTE_OFFSET (UNLOCKED + 1))
                  {| haveWriteLock := haveWriteLock s; haveReadLock := true |})
      else if w =? -1 then
        ([CompareExchange UNLOCKED (UNLOCKED + 1); Wait WRITE_LOCKED], stuck buf s)
      else
        ([CompareExchange UNLOCKED (UNLOCKED + 1); CompareExchange w (w + 1); Notify],
         Returned (view_set buf BYTE_OFFSET (w + 1))
                  {| haveWriteLock := haveWriteLock s; haveReadLock := true |})
  | ReadUnlock, None =>
      ([CompareExchange 1 (1 - 1)], Thrown (no_word buf) buf s)
  | ReadUnlock, Some w =>
      if w =? 1 then
        ([CompareExchange 1 (1 - 1); Notify],
         Returned (view_set buf BYTE_OFFSET (1 - 1))
                  {| haveWriteLock := haveWriteLock s; haveReadLock := false |})
      else if w =? -1 then
        ([CompareExchange 1 (1 - 1)],
         Thrown (Error "Semaphore corrupted: Read lock was overridden by write lock")
                buf s)
      else
        ([CompareExchange 1 (1 - 1); CompareExchange w (w - 1); Notify],
         Returned (view_set buf BYTE_OFFSET (w - 1))
                  {| haveWriteLock := haveWriteLock s; haveReadLock := false |})
  end.

Definition alone (m : method) (buf : ArrayBuffer) (s : Semaphore)
    : list access * outcome :=
  match enter m s with
  | inl e => ([], Thrown e buf s)
  | inr _ => alone_body m buf s
  end.

Definition out_of_fuel (o : outcome) : bool :=
  match o with
  | OutOfFuel _ _ => true
  | _ => false
  end.

(** ** Sleepers and pending notifications *)

(** An agent that has changed the word and has not yet called [notify]. *)
Definition pending (a : agent) : bool :=
  match doing a with
  | Running f => is_notify f
  | Idle | Sleeping _ => false
  end.

(** What the word [w] must be for an agent asleep: a waiting writer needs
    a lock that is not free, a waiting reader a lock that is write
    locked. *)
Definition sleeper_ok (w : Z) (a : agent) : Prop :=
  match doing a with
  | Sleeping f =>
      match method_of f with
      | WriteLock => w <> 0
      | ReadLock => w = -1
      | WriteUnlock | ReadUnlock => False
      end
  | Idle | Running _ => True
  end.

(** The value [writeLock] waits on is one it has just read, and not [0];
    nobody sleeps at a [wait] frame (a sleeper resumes at the head of its
    loop). *)
Definition wait_ok (a : agent) : Prop :=
  match doing a with
  | Running (writeLock_wait l) => - 2 ^ 31 <= l < 2 ^ 31 /\ l <> 0
  | Sleeping (writeLock_wait _) | Sleeping readLock_wait => False
  | _ => True
  end.

(** The invariant behind the wake-ups: a notification is on its way, or
    every sleeper has a reason to sleep. *)
Definition wake_inv (sigma : system) : Prop :=
  Forall wait_ok (agents sigma) /\
  ((exists j a, agents sigma !! j = Some a /\ pending a = true) \/
   (forall w, word (memory sigma) = Some w -> Forall (sleeper_ok w) (agents sigma))).

(** ** The part of the buffer the lock does not own *)

(** Two buffers that differ at most in their first four bytes. *)
Definition same_frame (buf buf' : ArrayBuffer) : Prop :=
  isShared buf' = isShared buf /\
  byteLength buf' = byteLength buf /\
  drop 4 (contents buf') = drop 4 (contents buf).

(** ** Sample states *)

(** Two handles on a buffer that is not shared: the first has the write
    lock, the second has called [writeLock] and is about to wait. *)
Definition waiting_unshared : system :=
  {| memory := view_set (construct ArrayBufferCtor 4) BYTE_OFFSET (-1);
     agents := [ {| handle := holding_write; doing := Idle |};
                 {| handle := fresh; doing := Running (writeLock_wait (-1)) |} ] |}.

(** Two handles between calls, the first with the write lock. *)
Definition writer_done : system :=
  {| memory := buffer_at (-1);
     agents := [ {| handle := holding_write; doing := Idle |};
                 {| handle := fresh; doing := Idle |} ] |}.

(** Two handles: the first has the write lock, the second sleeps in
    [readLock]. *)
Definition reader_asleep : system :=
  {| memory := buffer_at (-1);
     agents := [ {| handle := holding_write; doing := Idle |};
                 {| handle := fresh; doing := Sleeping (readLock_compareExchange UNLOCKED) |} ] |}.

(** * Properties *)

(** ** Memory *)

Lemma Z_of_byte_range (b : byte) : 0 <= Z_of_byte b < 256.
Proof.
  unfold Z_of_byte. pose proof (Byte.to_N_bounded b) as H. lia.
Qed.

Lemma Z_of_byte_of_Z (z : Z) : Z_of_byte (byte_of_Z z) = z mod 256.
Proof.
  unfold Z_of_byte, byte_of_Z.
  assert (Hr : 0 <= z mod 256 < 256) by (apply Z.mod_pos_bound; lia).
  destruct (Byte.of_N (Z.to_N (z mod 256))) as [b|] eqn:E.
  - apply Byte.to_of_N in E. simpl. rewrite E. lia.
  - apply Byte.of_N_None_iff in E. lia.
Qed.

Lemma ToInt32_range (x : Z) : - 2 ^ 31 <= ToInt32 x < 2 ^ 31.
Proof.
  unfold ToInt32. cbv zeta.
  assert (0 <= x mod 2 ^ 32 < 2 ^ 32) by (apply Z.mod_pos_bound; lia).
  destruct (Z.leb_spec (2 ^ 31) (x mod 2 ^ 32)); lia.
Qed.

Lemma ToInt32_small (x : Z) : - 2 ^ 31 <= x < 2 ^ 31 -> ToInt32 x = x.
Proof.
  intros Hx. unfold ToInt32. cbv zeta.
  destruct (Z.leb_spec (2 ^ 31) (x mod 2 ^ 32)) as [H|H];
    revert H; change (2 ^ 32) with 4294967296 in *;
    change (2 ^ 31) with 2147483648 in *;
    intros H; Z.div_mod_to_equations; lia.
Qed.

Lemma ToInt32_mod (x : Z) : ToInt32 (x mod 2 ^ 32) = ToInt32 x.
Proof.
  unfold ToInt32. cbv zeta. rewrite Z.mod_mod by lia. reflexivity.
Qed.

Lemma Int32_of_bytes_range (b0 b1 b2 b3 : byte) :
  - 2 ^ 31 <= Int32_of_bytes b0 b1 b2 b3 < 2 ^ 31.
Proof. apply ToInt32_range. Qed.

Lemma bytes_recompose (u : Z) :
  0 <= u < 2 ^ 32 ->
  u mod 256 + 2 ^ 8 * ((u / 2 ^ 8) mod 256)
  + 2 ^ 16 * ((u / 2 ^ 16) mod 256) + 2 ^ 24 * ((u / 2 ^ 24) mod 256) = u.
Proof.
  change (2 ^ 32) with 4294967296; change (2 ^ 8) with 256;
    change (2 ^ 16) with 65536; change (2 ^ 24) with 16777216.
  intros Hu. Z.div_mod_to_equations. lia.
Qed.

Lemma word_attached (buf : ArrayBuffer) (w : Z) :
  word buf = Some w -> isDetached buf = false.
Proof. unfold word, view_get. now destruct (isDetached buf). Qed.

Lemma word_view_set (buf : ArrayBuffer) (v w : Z) :
  word buf = Some w -> word (view_set buf BYTE_OFFSET v) = Some (ToInt32 v).
Proof.
  intros H. apply word_attached in H.
  unfold word, view_get, view_set, BYTE_OFFSET, Int32_bytes. simpl. rewrite H.
  unfold Int32_of_bytes. rewrite !Z_of_byte_of_Z.
  rewrite bytes_recompose by (apply Z.mod_pos_bound; lia).
  now rewrite ToInt32_mod.
Qed.

Lemma word_range (buf : ArrayBuffer) (w : Z) :
  word buf = Some w -> - 2 ^ 31 <= w < 2 ^ 31.
Proof.
  unfold word, view_get, BYTE_OFFSET. simpl.
  destruct (isDetached buf); [discriminate|].
  destruct (contents buf) as [|b0 [|b1 [|b2 [|b3 rest]]]]; try discriminate.
  intros [= <-]. apply Int32_of_bytes_range.
Qed.

Lemma isShared_view_set (buf : ArrayBuffer) (i : nat) (v : Z) :
  isShared (view_set buf i v) = isShared buf.
Proof. reflexivity. Qed.

Lemma byteLength_view_set (buf : ArrayBuffer) (v w : Z) :
  word buf = Some w -> byteLength (view_set buf BYTE_OFFSET v) = byteLength buf.
Proof.
  unfold word, view_get, view_set, byteLength, BYTE_OFFSET. simpl.
  destruct (isDetached buf); [discriminate|].
  destruct (contents buf) as [|b0 [|b1 [|b2 [|b3 rest]]]]; try discriminate.
  intros _. simpl. now rewrite drop_0.
Qed.

Lemma word_new (c : arrayBufferConstructor) : word (construct c 4) = Some 0.
Proof. destruct c; reflexivity. Qed.

(** The word of a buffer that was written through the view. *)
Ltac word_known :=
  cbn [memory_after];
  match goal with
  | |- word (view_set _ _ _) = Some _ => eapply word_view_set; word_known
  | |- word (construct _ _) = Some _ => apply word_new
  | |- word _ = Some _ => eassumption
  end.

(** ** The Atomics calls, in terms of the lock word *)

Lemma compareExchange_word (buf : ArrayBuffer) (w expected replacement : Z) :
  word buf = Some w ->
  Atomics_compareExchange buf BYTE_OFFSET expected replacement =
  inr (w, if w =? ToInt32 expected
          then view_set buf BYTE_OFFSET replacement else buf).
Proof.
  intros H. unfold Atomics_compareExchange. rewrite (word_attached _ _ H).
  unfold word in H. rewrite H. now destruct (w =? ToInt32 expected).
Qed.

Lemma notify_word (buf : ArrayBuffer) (w : Z) :
  word buf = Some w -> Atomics_notify buf BYTE_OFFSET = inr tt.
Proof.
  intros H. unfold Atomics_notify. rewrite (word_attached _ _ H).
  unfold word in H. now rewrite H.
Qed.

Lemma wait_word (buf : ArrayBuffer) (w value : Z) :
  word buf = Some w ->
  Atomics_wait buf BYTE_OFFSET value =
  if negb (isShared buf) then inl TypeError
  else if w =? ToInt32 value then inr asleep else inr not_equal.
Proof.
  intros H. unfold Atomics_wait. rewrite (word_attached _ _ H).
  unfold word in H. now rewrite H.
Qed.

Lemma exec_S (fuel : nat) (buf : ArrayBuffer) (s : Semaphore) (f : frame) :
  exec (S fuel) buf s f =
  match step buf s f with
  | Goto buf' f' =>
      let (trace, o) := exec fuel buf' s f' in (access_of f :: trace, o)
  | Suspend _ => ([access_of f], Blocked buf s)
  | Return s' => ([access_of f], Returned buf s')
  | Throw e => ([access_of f], Thrown e buf s)
  end.
Proof. reflexivity. Qed.

(** A successful acquiring or releasing [compareExchange] followed by its
    [notify]. *)
Lemma step_readLock_hit (buf : ArrayBuffer) (s : Semaphore) (n : Z) :
  word buf = Some n ->
  step buf s (readLock_compareExchange n) =
  Goto (view_set buf BYTE_OFFSET (n + 1)) readLock_notify.
Proof.
  intros H. pose proof (word_range _ _ H) as Hr.
  unfold step. rewrite (compareExchange_word _ _ _ _ H).
  rewrite (ToInt32_small n Hr), !Z.eqb_refl. reflexivity.
Qed.

Lemma step_readLock_miss (buf : ArrayBuffer) (s : Semaphore) (n l : Z) :
  word buf = Some n -> n <> l -> - 2 ^ 31 <= l < 2 ^ 31 -> n <> -1 ->
  step buf s (readLock_compareExchange l) = Goto buf (readLock_compareExchange n).
Proof.
  intros H Hl Hr Hn. unfold step. rewrite (compareExchange_word _ _ _ _ H).
  rewrite (ToInt32_small l Hr).
  destruct (Z.eqb_spec n l); [congruence|].
  destruct (Z.eqb_spec n (-1)); [congruence|]. reflexivity.
Qed.

Lemma step_readUnlock_hit (buf : ArrayBuffer) (s : Semaphore) (n : Z) :
  word buf = Some n ->
  step buf s (readUnlock_compareExchange n) =
  Goto (view_set buf BYTE_OFFSET (n - 1)) readUnlock_notify.
Proof.
  intros H. pose proof (word_range _ _ H) as Hr.
  unfold step. rewrite (compareExchange_word _ _ _ _ H).
  rewrite (ToInt32_small n Hr), !Z.eqb_refl. reflexivity.
Qed.

Lemma step_readUnlock_miss (buf : ArrayBuffer) (s : Semaphore) (n l : Z) :
  word buf = Some n -> n <> l -> - 2 ^ 31 <= l < 2 ^ 31 -> n <> -1 ->
  step buf s (readUnlock_compareExchange l) = Goto buf (readUnlock_compareExchange n).
Proof.
  intros H Hl Hr Hn. unfold step. rewrite (compareExchange_word _ _ _ _ H).
  rewrite (ToInt32_small l Hr).
  destruct (Z.eqb_spec n l); [congruence|].
  destruct (Z.eqb_spec n WRITE_LOCKED); [unfold WRITE_LOCKED in *; congruence|].
  reflexivity.
Qed.

Lemma step_readUnlock_overridden (buf : ArrayBuffer) (s : Semaphore) (l : Z) :
  word buf = Some (-1) -> - 2 ^ 31 <= l < 2 ^ 31 -> l <> -1 ->
  step buf s (readUnlock_compareExchange l) =
  Throw (Error "Semaphore corrupted: Read lock was overridden by write lock").
Proof.
  intros H Hr Hl. unfold step. rewrite (compareExchange_word _ _ _ _ H).
  rewrite (ToInt32_small l Hr).
  destruct (Z.eqb_spec (-1) l); [congruence|]. reflexivity.
Qed.

Lemma step_writeLock_hit (buf : ArrayBuffer) (s : Semaphore) :
  word buf = Some 0 ->
  step buf s writeLock_compareExchange =
  Goto (view_set buf BYTE_OFFSET WRITE_LOCKED) writeLock_notify.
Proof.
  intros H. unfold step. now rewrite (compareExchange_word _ _ _ _ H).
Qed.

Lemma step_writeLock_miss (buf : ArrayBuffer) (s : Semaphore) (w : Z) :
  word buf = Some w -> w <> 0 ->
  step buf s writeLock_compareExchange = Goto buf (writeLock_wait w).
Proof.
  intros H Hw. unfold step. rewrite (compareExchange_word _ _ _ _ H).
  change (ToInt32 UNLOCKED) with 0. unfold UNLOCKED.
  destruct (Z.eqb_spec w 0); [congruence|]. reflexivity.
Qed.

Lemma step_writeUnlock_hit (buf : ArrayBuffer) (s : Semaphore) :
  word buf = Some (-1) ->
  step buf s writeUnlock_compareExchange =
  Goto (view_set buf BYTE_OFFSET UNLOCKED) writeUnlock_notify.
Proof.
  intros H. unfold step. now rewrite (compareExchange_word _ _ _ _ H).
Qed.

Lemma step_writeUnlock_miss (buf : ArrayBuffer) (s : Semaphore) (w : Z) :
  word buf = Some w -> w <> -1 ->
  step buf s writeUnlock_compareExchange =
  Throw (Error "Semaphore corrupted: holding write lock, but unable to unlock").
Proof.
  intros H Hw. unfold step. rewrite (compareExchange_word _ _ _ _ H).
  change (ToInt32 WRITE_LOCKED) with (-1). unfold WRITE_LOCKED.
  destruct (Z.eqb_spec w (-1)); [congruence|]. reflexivity.
Qed.

Lemma step_notify (buf : ArrayBuffer) (s s' : Semaphore) (f : frame) (w : Z) :
  word buf = Some w -> returns s f = Some s' -> step buf s f = Return s'.
Proof.
  intros H Hf. destruct f; try discriminate; simpl in Hf; injection Hf as <-;
    unfold step; now rewrite (notify_word _ _ H).
Qed.

Lemma exec_notify (fuel : nat) (buf : ArrayBuffer) (s s' : Semaphore) (f : frame) (w : Z) :
  word buf = Some w -> returns s f = Some s' ->
  exec (S fuel) buf s f = ([Notify], Returned buf s').
Proof.
  intros H Hf. rewrite exec_S, (step_notify _ _ _ _ _ H Hf).
  destruct f; try discriminate; reflexivity.
Qed.

(** ** One handle alone: the transitions of the four methods *)

(** The tail of every successful call: the [notify] after the
    [compareExchange] that changed the word. *)
Ltac finish_call :=
  erewrite exec_notify; [reflexivity | word_known | reflexivity].

Lemma readLock_from (fuel : nat) (buf : ArrayBuffer) (s : Semaphore) (n : Z) :
  word buf = Some n -> 0 <= n ->
  haveWriteLock s = false -> haveReadLock s = false ->
  (3 <= fuel)%nat ->
  snd (readLock fuel buf s) =
  Returned (view_set buf BYTE_OFFSET (n + 1))
           {| haveWriteLock := false; haveReadLock := true |}.
Proof.
  intros H Hn Hw Hr Hfuel.
  destruct fuel as [|[|[|fuel]]]; try lia.
  destruct s as [hw hr]; simpl in Hw, Hr; subst hw hr.
  unfold readLock, call. cbn [enter haveWriteLock haveReadLock].
  destruct (Z.eq_dec n 0) as [->|Hn0].
  - rewrite exec_S, (step_readLock_hit _ _ _ H).
    finish_call.
  - rewrite exec_S, (step_readLock_miss _ _ n UNLOCKED H) by (unfold UNLOCKED; lia).
    rewrite exec_S, (step_readLock_hit _ _ _ H).
    finish_call.
Qed.

Lemma readUnlock_from (fuel : nat) (buf : ArrayBuffer) (s : Semaphore) (n : Z) :
  word buf = Some n -> n <> -1 ->
  haveWriteLock s = false -> haveReadLock s = true ->
  (3 <= fuel)%nat ->
  snd (readUnlock fuel buf s) =
  Returned (view_set buf BYTE_OFFSET (n - 1))
           {| haveWriteLock := false; haveReadLock := false |}.
Proof.
  intros H Hn Hw Hr Hfuel.
  destruct fuel as [|[|[|fuel]]]; try lia.
  destruct s as [hw hr]; simpl in Hw, Hr; subst hw hr.
  unfold readUnlock, call. cbn [enter haveWriteLock haveReadLock negb].
  destruct (Z.eq_dec n 1) as [->|Hn1].
  - rewrite exec_S, (step_readUnlock_hit _ _ _ H).
    finish_call.
  - rewrite exec_S, (step_readUnlock_miss _ _ n 1 H) by lia.
    rewrite exec_S, (step_readUnlock_hit _ _ _ H).
    finish_call.
Qed.

Lemma writeLock_from (fuel : nat) (buf : ArrayBuffer) (s : Semaphore) :
  word buf = Some 0 ->
  haveWriteLock s = false -> haveReadLock s = false ->
  (2 <= fuel)%nat ->
  writeLock fuel buf s =
  ([CompareExchange UNLOCKED WRITE_LOCKED; Notify],
   Returned (view_set buf BYTE_OFFSET WRITE_LOCKED)
            {| haveWriteLock := true; haveReadLock := false |}).
Proof.
  intros H Hw Hr Hfuel.
  destruct fuel as [|[|fuel]]; try lia.
  destruct s as [hw hr]; simpl in Hw, Hr; subst hw hr.
  unfold writeLock, call. cbn [enter haveWriteLock haveReadLock].
  rewrite exec_S, (step_writeLock_hit _ _ H).
  finish_call.
Qed.

Lemma writeUnlock_from (fuel : nat) (buf : ArrayBuffer) (s : Semaphore) :
  word buf = Some (-1) ->
  haveWriteLock s = true -> haveReadLock s = false ->
  (2 <= fuel)%nat ->
  writeUnlock fuel buf s =
  ([CompareExchange WRITE_LOCKED UNLOCKED; Notify],
   Returned (view_set buf BYTE_OFFSET UNLOCKED)
            {| haveWriteLock := false; haveReadLock := false |}).
Proof.
  intros H Hw Hr Hfuel.
  destruct fuel as [|[|fuel]]; try lia.
  destruct s as [hw hr]; simpl in Hw, Hr; subst hw hr.
  unfold writeUnlock, call. cbn [enter haveWriteLock haveReadLock negb].
  rewrite exec_S, (step_writeUnlock_hit _ _ H).
  finish_call.
Qed.

(** C3 (as amended).  With both flags false and the word at [n], for
    [0 <= n < 2^31 - 1], [readLock] returns, leaves the word at [n + 1] and
    sets [haveReadLock]; with [haveReadLock] set, [haveWriteLock] clear and
    the word at [n >= 1], [readUnlock] returns, leaves the word at [n - 1]
    and clears [haveReadLock]. *)
Theorem read_transitions (fuel : nat) (buf : ArrayBuffer) (s : Semaphore) (n : Z) :
  word buf = Some n -> (3 <= fuel)%nat ->
  (0 <= n < 2 ^ 31 - 1 ->
   haveWriteLock s = false -> haveReadLock s = false ->
   exists buf' s',
     snd (readLock fuel buf s) = Returned buf' s' /\
     word buf' = Some (n + 1) /\
     haveReadLock s' = true /\ haveWriteLock s' = false) /\
  (1 <= n ->
   haveWriteLock s = false -> haveReadLock s = true ->
   exists buf' s',
     snd (readUnlock fuel buf s) = Returned buf' s' /\
     word buf' = Some (n - 1) /\
     haveReadLock s' = false /\ haveWriteLock s' = false).
Proof.
  intros H Hfuel. pose proof (word_range _ _ H) as Hr. split.
  - intros Hn Hw Hrd. eexists _, _. split; [now apply (readLock_from _ _ _ n) |].
    erewrite word_view_set by word_known; rewrite ToInt32_small by lia. auto.
  - intros Hn Hw Hrd. eexists _, _. split; [apply (readUnlock_from _ _ _ n); auto; lia |].
    erewrite word_view_set by word_known; rewrite ToInt32_small by lia. auto.
Qed.

Lemma read_transitions_witness :
  (exists buf' s', snd (readLock 3 (buffer_at 5) fresh) = Returned buf' s' /\
     word buf' = Some (5 + 1) /\ haveReadLock s' = true /\ haveWriteLock s' = false) /\
  (exists buf' s', snd (readUnlock 3 (buffer_at 5) holding_read) = Returned buf' s' /\
     word buf' = Some (5 - 1) /\ haveReadLock s' = false /\ haveWriteLock s' = false).
Proof.
  assert (H : word (buffer_at 5) = Some 5) by reflexivity.
  split.
  - apply (proj1 (read_transitions 3 (buffer_at 5) fresh 5 H (le_n 3)));
      [lia | reflexivity | reflexivity].
  - apply (proj2 (read_transitions 3 (buffer_at 5) holding_read 5 H (le_n 3)));
      [lia | reflexivity | reflexivity].
Defined.

(** C3, as stated, fails at the largest word: no call can leave the word
    at [2^31], and [readLock] on a word at [2^31 - 1] returns with the word
    at [-2^31]. *)
Lemma read_transitions_counterexample :
  word (buffer_at 2147483647) = Some 2147483647 /\
  0 <= 2147483647 /\
  haveWriteLock fresh = false /\ haveReadLock fresh = false /\
  (forall fuel, ~ exists buf' s',
      snd (readLock fuel (buffer_at 2147483647) fresh) = Returned buf' s' /\
      word buf' = Some (2147483647 + 1)) /\
  (exists buf' s',
      snd (readLock 3 (buffer_at 2147483647) fresh) = Returned buf' s' /\
      word buf' = Some (-2147483648)).
Proof.
  repeat split; try reflexivity; try lia.
  - intros fuel (buf' & s' & _ & Hw). apply word_range in Hw.
    change (2 ^ 31) with 2147483648 in Hw. lia.
  - eexists _, _. split; reflexivity.
Qed.

(** ** Misuse of a handle *)

(** C4.  A misused call throws a protocol violation before any [Atomics]
    call: the trace is empty, and the buffer and the flags are those the
    call started with.  This holds on every buffer and with any fuel. *)
Theorem misuse_is_caught (fuel : nat) (m : method) (buf : ArrayBuffer) (s : Semaphore) :
  misuse m s = true ->
  exists e,
    call fuel m buf s = ([], Thrown e buf s) /\
    kind_of e = Some ProtocolViolation.
Proof.
  intros H. unfold call.
  destruct s as [hw hr], m, hw, hr; simpl in H; try discriminate;
    cbn [enter haveWriteLock haveReadLock negb];
    eexists; (split; [reflexivity | reflexivity]).
Qed.

Lemma misuse_is_caught_witness :
  (exists e, call 5 WriteLock (buffer_at (-1)) holding_write
             = ([], Thrown e (buffer_at (-1)) holding_write) /\
             kind_of e = Some ProtocolViolation) /\
  (exists e, call 5 ReadUnlock (buffer_at 0) fresh
             = ([], Thrown e (buffer_at 0) fresh) /\
             kind_of e = Some ProtocolViolation).
Proof.
  split.
  - apply (misuse_is_caught 5 WriteLock (buffer_at (-1)) holding_write). reflexivity.
  - apply (misuse_is_caught 5 ReadUnlock (buffer_at 0) fresh). reflexivity.
Defined.

(** ** Corruption seen by a release *)

(** C5.  [writeUnlock] on a handle with [haveWriteLock] set and a word
    other than [-1], and [readUnlock] on a handle with [haveReadLock] set
    and the word at [-1], throw a corruption error after at most one
    [Atomics] call (no retry), with the buffer and the flags unchanged.
    The same holds inside the loop of [readUnlock], whatever value it has
    adopted: a [compareExchange] that observes [-1] throws and writes
    nothing. *)
Theorem release_detects_corruption (fuel : nat) (buf : ArrayBuffer) (s : Semaphore) (w : Z) :
  word buf = Some w -> (1 <= fuel)%nat ->
  (w <> -1 -> haveWriteLock s = true ->
   exists trace e,
     writeUnlock fuel buf s = (trace, Thrown e buf s) /\
     kind_of e = Some Corruption /\ (length trace <= 1)%nat) /\
  (w = -1 -> haveReadLock s = true ->
   exists trace e,
     readUnlock fuel buf s = (trace, Thrown e buf s) /\
     kind_of e = Some Corruption /\ (length trace <= 1)%nat) /\
  (w = -1 -> forall lockState, - 2 ^ 31 <= lockState < 2 ^ 31 -> lockState <> -1 ->
   exists e,
     step buf s (readUnlock_compareExchange lockState) = Throw e /\
     kind_of e = Some Corruption).
Proof.
  intros H Hfuel. destruct fuel as [|fuel]; [lia|]. repeat split.
  - intros Hw Hhw. destruct s as [hw hr]; simpl in Hhw; subst hw.
    unfold writeUnlock, call. destruct hr; cbn [enter haveWriteLock haveReadLock negb].
    + eexists [], _. repeat split. simpl. lia.
    + rewrite exec_S, (step_writeUnlock_miss _ _ w H Hw).
      eexists _, _. repeat split. simpl. lia.
  - intros -> Hhr. destruct s as [hw hr]; simpl in Hhr; subst hr.
    unfold readUnlock, call. destruct hw; cbn [enter haveWriteLock haveReadLock negb].
    + eexists [], _. repeat split. simpl. lia.
    + rewrite exec_S, (step_readUnlock_overridden _ _ 1 H) by lia.
      eexists _, _. repeat split. simpl. lia.
  - intros -> l Hl Hl1. rewrite (step_readUnlock_overridden _ _ l H Hl Hl1).
    eexists. split; reflexivity.
Qed.

Lemma release_detects_corruption_witness :
  (exists trace e,
     writeUnlock 1 (buffer_at 3) holding_write = (trace, Thrown e (buffer_at 3) holding_write) /\
     kind_of e = Some Corruption /\ (length trace <= 1)%nat) /\
  (exists trace e,
     readUnlock 1 (buffer_at (-1)) holding_read = (trace, Thrown e (buffer_at (-1)) holding_read) /\
     kind_of e = Some Corruption /\ (length trace <= 1)%nat).
Proof.
  split.
  - apply (proj1 (release_detects_corruption 1 (buffer_at 3) holding_write 3
                    eq_refl (le_n 1))); [lia | reflexivity].
  - apply (proj1 (proj2 (release_detects_corruption 1 (buffer_at (-1)) holding_read (-1)
                    eq_refl (le_n 1)))); reflexivity.
Defined.

(** ** Scenarios *)

(** C6.  The basic write scenario: [new] gives word [0] and clear flags;
    [writeLock] returns with the word at [-1] and [haveWriteLock] set;
    [writeUnlock] returns with the word at [0] and [haveWriteLock] clear. *)
Theorem basic_write_scenario (c : arrayBufferConstructor) (fuel : nat) :
  (2 <= fuel)%nat ->
  exists buf0 s0 buf1 s1 buf2 s2,
    new c = inr (buf0, s0) /\
    word buf0 = Some 0 /\ haveWriteLock s0 = false /\ haveReadLock s0 = false /\
    snd (writeLock fuel buf0 s0) = Returned buf1 s1 /\
    word buf1 = Some (-1) /\ haveWriteLock s1 = true /\ haveReadLock s1 = false /\
    snd (writeUnlock fuel buf1 s1) = Returned buf2 s2 /\
    word buf2 = Some 0 /\ haveWriteLock s2 = false /\ haveReadLock s2 = false.
Proof.
  intros Hfuel.
  eexists (construct c 4), fresh, _, _, _, _.
  split; [destruct c; reflexivity|].
  split; [apply word_new|]. do 2 (split; [reflexivity|]).
  split; [rewrite writeLock_from; auto using word_new|].
  split; [word_known|]. do 2 (split; [reflexivity|]).
  split; [rewrite writeUnlock_from; auto; try word_known|].
  split; [word_known|]. split; reflexivity.
Qed.

Lemma basic_write_scenario_witness :
  exists buf0 s0 buf1 s1 buf2 s2,
    new SharedArrayBufferCtor = inr (buf0, s0) /\
    word buf0 = Some 0 /\ haveWriteLock s0 = false /\ haveReadLock s0 = false /\
    snd (writeLock 2 buf0 s0) = Returned buf1 s1 /\
    word buf1 = Some (-1) /\ haveWriteLock s1 = true /\ haveReadLock s1 = false /\
    snd (writeUnlock 2 buf1 s1) = Returned buf2 s2 /\
    word buf2 = Some 0 /\ haveWriteLock s2 = false /\ haveReadLock s2 = false.
Proof. apply (basic_write_scenario SharedArrayBufferCtor 2). apply le_n. Defined.

(** C9.  [readUnlock] on a handle with [haveReadLock] set while the word
    is [0]: the first [compareExchange] (from [1]) misses, the loop adopts
    [0], the second one takes the word from [0] to [-1]; the call returns
    with [haveReadLock] clear and the word write-locked. *)
Theorem readUnlock_on_unlocked_word (fuel : nat) (buf : ArrayBuffer) (s : Semaphore) :
  word buf = Some 0 ->
  haveReadLock s = true -> haveWriteLock s = false ->
  (3 <= fuel)%nat ->
  exists buf' s',
    readUnlock fuel buf s =
      ([CompareExchange 1 0; CompareExchange 0 (-1); Notify], Returned buf' s') /\
    word buf' = Some WRITE_LOCKED /\
    haveReadLock s' = false /\ haveWriteLock s' = false.
Proof.
  intros H Hr Hw Hfuel. destruct fuel as [|[|[|fuel]]]; try lia.
  destruct s as [hw hr]; simpl in Hw, Hr; subst hw hr.
  unfold readUnlock, call. cbn [enter haveWriteLock haveReadLock negb].
  rewrite exec_S, (step_readUnlock_miss _ _ 0 1 H) by lia.
  rewrite exec_S, (step_readUnlock_hit _ _ _ H).
  erewrite exec_notify; [| word_known | reflexivity].
  eexists _, _. split; [reflexivity|]. split; [word_known|]. auto.
Qed.

Lemma readUnlock_on_unlocked_word_witness :
  exists buf' s',
    readUnlock 3 (buffer_at 0) holding_read =
      ([CompareExchange 1 0; CompareExchange 0 (-1); Notify], Returned buf' s') /\
    word buf' = Some WRITE_LOCKED /\
    haveReadLock s' = false /\ haveWriteLock s' = false.
Proof.
  apply (readUnlock_on_unlocked_word 3 (buffer_at 0) holding_read);
    [reflexivity | reflexivity | reflexivity | apply le_n].
Defined.

(** C10.  [readLock] on a word at [2^31 - 1]: the call returns, and the
    stored [lockState + 1] wraps to [-2^31]. *)
Theorem readLock_wraps (fuel : nat) (buf : ArrayBuffer) (s : Semaphore) :
  word buf = Some 2147483647 ->
  haveWriteLock s = false -> haveReadLock s = false ->
  (3 <= fuel)%nat ->
  exists buf' s',
    snd (readLock fuel buf s) = Returned buf' s' /\
    word buf' = Some (-2147483648) /\
    -2147483648 < -1 /\
    haveReadLock s' = true /\ haveWriteLock s' = false.
Proof.
  intros H Hw Hr Hfuel. eexists _, _.
  split; [apply (readLock_from _ _ _ 2147483647); auto; lia|].
  split; [word_known|]. split; [lia|]. auto.
Qed.

Lemma readLock_wraps_witness :
  exists buf' s',
    snd (readLock 3 (buffer_at 2147483647) fresh) = Returned buf' s' /\
    word buf' = Some (-2147483648) /\
    -2147483648 < -1 /\
    haveReadLock s' = true /\ haveWriteLock s' = false.
Proof.
  apply (readLock_wraps 3 (buffer_at 2147483647) fresh);
    [reflexivity | reflexivity | reflexivity | apply le_n].
Defined.

(** ** Calls that respect the protocol *)

Lemma protocol_call (fuel : nat) (h h' : held) (m : method)
    (buf : ArrayBuffer) (s : Semaphore) :
  consistent h buf s -> protocol_next h m = Some h' -> (2 <= fuel)%nat ->
  exists buf' s',
    snd (call fuel m buf s) = Returned buf' s' /\ consistent h' buf' s'.
Proof.
  intros Hc Hn Hfuel. destruct fuel as [|[|fuel]]; try lia.
  destruct h, m; try discriminate; injection Hn as <-;
    destruct Hc as [Hw ->].
  - exists (view_set buf BYTE_OFFSET WRITE_LOCKED), holding_write. split.
    + pose proof (writeLock_from _ buf fresh Hw eq_refl eq_refl Hfuel) as E.
      unfold writeLock in E. now rewrite E.
    + split; [word_known | reflexivity].
  - exists (view_set buf BYTE_OFFSET (0 + 1)), holding_read. split.
    + unfold call. cbn [enter fresh haveWriteLock haveReadLock].
      rewrite exec_S, (step_readLock_hit _ _ _ Hw).
      finish_call.
    + split; [word_known | reflexivity].
  - exists (view_set buf BYTE_OFFSET UNLOCKED), fresh. split.
    + pose proof (writeUnlock_from _ buf holding_write Hw eq_refl eq_refl Hfuel) as E.
      unfold writeUnlock in E. now rewrite E.
    + split; [word_known | reflexivity].
  - exists (view_set buf BYTE_OFFSET (1 - 1)), fresh. split.
    + unfold call. cbn [enter holding_read haveWriteLock haveReadLock negb].
      rewrite exec_S, (step_readUnlock_hit _ _ _ Hw).
      finish_call.
    + split; [word_known | reflexivity].
Qed.

Lemma protocol_next_release (h h' : held) (m : method) :
  protocol_next h m = Some h' -> is_release m = true -> h' = Nothing.
Proof. destruct h, m; simpl; congruence. Qed.

Lemma protocol_calls (fuel : nat) (ms : list method) :
  (2 <= fuel)%nat ->
  forall (h : held) (buf : ArrayBuffer) (s : Semaphore),
  consistent h buf s -> respects h ms = true ->
  Forall2 (fun m o => exists buf' s', o = Returned buf' s' /\
                        (is_release m = true -> word buf' = Some 0))
          ms (calls fuel ms buf s) /\
  consistent Nothing (final buf s (calls fuel ms buf s)).1
                     (final buf s (calls fuel ms buf s)).2.
Proof.
  intros Hfuel. induction ms as [|m ms IH]; intros h buf s Hc Hr.
  - simpl in *. destruct h; try discriminate. split; [constructor | exact Hc].
  - simpl in Hr. destruct (protocol_next h m) as [h'|] eqn:Hn; [|discriminate].
    destruct (protocol_call fuel h h' m buf s Hc Hn Hfuel) as (buf' & s' & Hcall & Hc').
    destruct (IH h' buf' s' Hc' Hr) as [Hall Hfin].
    cbn [calls]. rewrite Hcall. split.
    + constructor; [|exact Hall].
      exists buf', s'. split; [reflexivity|]. intros Hrel.
      rewrite (protocol_next_release _ _ _ Hn Hrel) in Hc'. apply Hc'.
    + unfold final in *. rewrite last_cons.
      destruct (last (calls fuel ms buf' s')); exact Hfin.
Qed.

(** C1.  On a handle with clear flags over an unlocked word, every call
    of a sequence that respects the protocol returns (none throws, none
    blocks), the word is [0] after each release, and at the end the word
    is [0] and the flags are clear. *)
Theorem protocol_respecting_calls (fuel : nat) (ms : list method)
    (buf : ArrayBuffer) (s : Semaphore) :
  word buf = Some 0 ->
  haveWriteLock s = false -> haveReadLock s = false ->
  respects Nothing ms = true ->
  (2 <= fuel)%nat ->
  Forall2 (fun m o => exists buf' s', o = Returned buf' s' /\
                        (is_release m = true -> word buf' = Some 0))
          ms (calls fuel ms buf s) /\
  word (final buf s (calls fuel ms buf s)).1 = Some 0 /\
  (final buf s (calls fuel ms buf s)).2 = fresh.
Proof.
  intros Hw Hhw Hhr Hres Hfuel.
  destruct s as [hw hr]; simpl in Hhw, Hhr; subst hw hr.
  exact (protocol_calls fuel ms Hfuel Nothing buf fresh (conj Hw eq_refl) Hres).
Qed.

Lemma protocol_respecting_calls_witness :
  let ms := [ReadLock; ReadUnlock; WriteLock; WriteUnlock; ReadLock; ReadUnlock] in
  let os := calls 2 ms (buffer_at 0) fresh in
  Forall2 (fun m o => exists buf' s', o = Returned buf' s' /\
                        (is_release m = true -> word buf' = Some 0)) ms os /\
  word (final (buffer_at 0) fresh os).1 = Some 0 /\
  (final (buffer_at 0) fresh os).2 = fresh.
Proof.
  apply (protocol_respecting_calls 2
           [ReadLock; ReadUnlock; WriteLock; WriteUnlock; ReadLock; ReadUnlock]
           (buffer_at 0) fresh);
    [reflexivity | reflexivity | reflexivity | reflexivity | apply le_n].
Defined.

(** ** Construction *)

(** C8 (as amended).  [new] cannot fail and returns a handle with clear
    flags over a zeroed buffer of four bytes.  [from] makes no check of a
    minimum size.  It fails in two cases only, both raised by the view
    constructor: with a [TypeError] on a detached buffer, and with a
    [RangeError] on a buffer of fixed length whose byte length is not a
    multiple of four.  On every other buffer (any resizable buffer, and
    any buffer of fixed length whose byte length is a multiple of four,
    the empty one included) it returns a handle with clear flags. *)
Theorem construction (c : arrayBufferConstructor) (arrayBuffer : ArrayBuffer) :
  (exists buf, new c = inr (buf, fresh) /\ byteLength buf = 4%nat /\ word buf = Some 0) /\
  (isDetached arrayBuffer = true -> from arrayBuffer = inl TypeError) /\
  (isDetached arrayBuffer = false -> isResizable arrayBuffer = true ->
   from arrayBuffer = inr fresh) /\
  (isDetached arrayBuffer = false -> isResizable arrayBuffer = false ->
   (byteLength arrayBuffer mod 4 = 0)%nat -> from arrayBuffer = inr fresh) /\
  (isDetached arrayBuffer = false -> isResizable arrayBuffer = false ->
   (byteLength arrayBuffer mod 4 <> 0)%nat -> from arrayBuffer = inl RangeError) /\
  from {| isShared := true; isResizable := false; isDetached := false; contents := [] |}
  = inr fresh.
Proof.
  split; [|split; [|split; [|split; [|split]]]].
  - exists (construct c 4). destruct c; repeat split.
  - intros Hd. unfold from, constructor, Int32Array. now rewrite Hd.
  - intros Hd Hr. unfold from, constructor, Int32Array. now rewrite Hd, Hr.
  - intros Hd Hr H. unfold from, constructor, Int32Array. now rewrite Hd, Hr, H.
  - intros Hd Hr H. unfold from, constructor, Int32Array. rewrite Hd, Hr.
    destruct (Nat.eqb_spec (byteLength arrayBuffer mod 4) 0); [contradiction | reflexivity].
  - reflexivity.
Qed.

Lemma construction_witness :
  from {| isShared := true; isResizable := false; isDetached := false;
          contents := [x00; x00; x00; x00; x00; x00; x00; x00] |} = inr fresh /\
  from {| isShared := false; isResizable := true; isDetached := false;
          contents := [x00; x00; x00; x00; x00; x00] |} = inr fresh /\
  from {| isShared := false; isResizable := false; isDetached := true;
          contents := [] |} = inl TypeError.
Proof.
  split; [|split].
  - apply (proj1 (proj2 (proj2 (proj2 (construction SharedArrayBufferCtor
      {| isShared := true; isResizable := false; isDetached := false;
         contents := [x00; x00; x00; x00; x00; x00; x00; x00] |})))));
      reflexivity.
  - apply (proj1 (proj2 (proj2 (construction SharedArrayBufferCtor
      {| isShared := false; isResizable := true; isDetached := false;
         contents := [x00; x00; x00; x00; x00; x00] |}))));
      reflexivity.
  - apply (proj1 (proj2 (construction SharedArrayBufferCtor
      {| isShared := false; isResizable := false; isDetached := true;
         contents := [] |})));
      reflexivity.
Defined.

(** C8, as stated, fails both ways: a region of six bytes is at least four
    bytes long and [from] throws on it, and a region of no bytes at all
    passes [from], so no check of a minimum size is made. *)
Lemma construction_counterexample :
  let six := {| isShared := true; isResizable := false; isDetached := false; contents := [x00; x00; x00; x00; x00; x00] |} in
  let none := {| isShared := true; isResizable := false; isDetached := false; contents := [] |} in
  ((4 <= byteLength six)%nat /\ from six = inl RangeError) /\
  ((byteLength none < 4)%nat /\ from none = inr fresh) /\
  ~ (forall buf, (4 <= byteLength buf)%nat -> exists s, from buf = inr s).
Proof.
  cbv zeta. split; [|split].
  - split; [unfold byteLength; simpl; lia | reflexivity].
  - split; [unfold byteLength; simpl; lia | reflexivity].
  - intros H.
    destruct (H {| isShared := true; isResizable := false; isDetached := false; contents := [x00; x00; x00; x00; x00; x00] |})
      as [s Hs]; [unfold byteLength; simpl; lia | discriminate].
Qed.

(** ** The flags of a handle *)

Lemma passes_flags_ok (m : method) (s : Semaphore) :
  passes m s = true -> flags_ok s = true.
Proof. destruct s as [[] []], m; cbv; congruence. Qed.

Lemma enter_passes (m : method) (s : Semaphore) (f : frame) :
  enter m s = inr f -> passes (method_of f) s = true /\ lockState_ok f.
Proof.
  unfold passes. destruct s as [[] []], m; simpl; intros [= <-]; simpl;
    (split; [reflexivity | try exact I; unfold UNLOCKED; lia]).
Qed.

Lemma returns_flags_ok (s s' : Semaphore) (f : frame) :
  passes (method_of f) s = true -> returns s f = Some s' -> flags_ok s' = true.
Proof.
  destruct s as [[] []], f; cbv; try discriminate; intros _ [= <-]; reflexivity.
Qed.

Lemma step_detached (buf : ArrayBuffer) (s : Semaphore) (f : frame) :
  isDetached buf = true -> step buf s f = Throw TypeError.
Proof.
  intros H. destruct f; unfold step, Atomics_compareExchange, Atomics_wait,
    Atomics_notify; now rewrite H.
Qed.

(** What [step] can answer, frame by frame. *)
Lemma step_Return (buf : ArrayBuffer) (s s' : Semaphore) (f : frame) :
  step buf s f = Return s' -> returns s f = Some s'.
Proof.
  destruct f; simpl;
    unfold Atomics_compareExchange, Atomics_wait, Atomics_notify;
    repeat (match goal with
            | |- context [match ?x with _ => _ end] => destruct x
            end; try discriminate);
    intros [= <-]; reflexivity.
Qed.

Lemma step_Goto (buf buf' : ArrayBuffer) (s : Semaphore) (f f' : frame) :
  step buf s f = Goto buf' f' ->
  method_of f' = method_of f /\ (lockState_ok f -> lockState_ok f').
Proof.
  destruct (isDetached buf) eqn:Hd; [rewrite (step_detached _ _ _ Hd); discriminate|].
  destruct f; simpl;
    unfold Atomics_compareExchange, Atomics_wait, Atomics_notify; rewrite ?Hd;
    destruct (view_get buf BYTE_OFFSET) as [w|] eqn:Hw; try discriminate;
    try (destruct (negb (isShared buf)); try discriminate);
    repeat (match goal with
            | |- context [if ?x =? ?y then _ else _] => destruct (Z.eqb_spec x y)
            end; try discriminate);
    intros [= <- <-]; (split; [reflexivity |]); simpl; try tauto;
    intros _; (try (unfold UNLOCKED; lia));
    (split; [exact (word_range _ _ Hw) | unfold WRITE_LOCKED in *; lia]).
Qed.

Lemma step_Suspend (buf : ArrayBuffer) (s : Semaphore) (f f' : frame) :
  step buf s f = Suspend f' ->
  method_of f' = method_of f /\ lockState_ok f' /\ is_notify f' = false.
Proof.
  destruct (isDetached buf) eqn:Hd; [rewrite (step_detached _ _ _ Hd); discriminate|].
  destruct f; simpl;
    unfold Atomics_compareExchange, Atomics_wait, Atomics_notify; rewrite ?Hd;
    destruct (view_get buf BYTE_OFFSET) as [w|] eqn:Hw; try discriminate;
    try (destruct (negb (isShared buf)); try discriminate);
    repeat (match goal with
            | |- context [if ?x =? ?y then _ else _] => destruct (Z.eqb_spec x y)
            end; try discriminate);
    intros [= <-]; repeat split; simpl; unfold UNLOCKED; lia.
Qed.

Lemma after_step_wf (buf : ArrayBuffer) (s : Semaphore) (f : frame) :
  passes (method_of f) s = true -> lockState_ok f ->
  wf_agent (after_step s (step buf s f)).
Proof.
  intros Hp Hl. destruct (step buf s f) as [buf' f'|f'|s'|e] eqn:E; unfold wf_agent; simpl.
  - destruct (step_Goto _ _ _ _ _ E) as [-> Hl']. auto.
  - destruct (step_Suspend _ _ _ _ E) as (-> & Hl' & Hn). auto.
  - apply step_Return in E. eapply returns_flags_ok; eauto.
  - eapply passes_flags_ok; eauto.
Qed.

Lemma after_enter_wf (m : method) (s : Semaphore) :
  flags_ok s = true -> wf_agent (after_enter s (enter m s)).
Proof.
  intros H. destruct (enter m s) as [e|f] eqn:E; unfold wf_agent; simpl; [exact H|].
  now apply enter_passes in E.
Qed.

Lemma wake_wf (a : agent) : wf_agent a -> wf_agent (wake a).
Proof.
  unfold wf_agent, wake. destruct a as [s [|f|f]]; simpl; tauto.
Qed.

Lemma wf_agent_flags_ok (a : agent) : wf_agent a -> flags_ok (handle a) = true.
Proof.
  unfold wf_agent. destruct a as [s [|f|f]]; simpl; [tauto | |];
    intros [H _]; eapply passes_flags_ok; eauto.
Qed.

(** One handle alone. *)
Lemma exec_flags_ok (fuel : nat) :
  forall (buf : ArrayBuffer) (s : Semaphore) (f : frame),
  passes (method_of f) s = true ->
  flags_ok (handle_of (snd (exec fuel buf s f))) = true.
Proof.
  induction fuel as [|fuel IH]; intros buf s f Hp.
  - simpl. eapply passes_flags_ok; eauto.
  - rewrite exec_S. destruct (step buf s f) as [buf' f'|f'|s'|e] eqn:E.
    + destruct (step_Goto _ _ _ _ _ E) as [Hm _].
      specialize (IH buf' s f'). rewrite Hm in IH. specialize (IH Hp).
      destruct (exec fuel buf' s f'). exact IH.
    + simpl. eapply passes_flags_ok; eauto.
    + simpl. apply step_Return in E. eapply returns_flags_ok; eauto.
    + simpl. eapply passes_flags_ok; eauto.
Qed.

Lemma call_flags_ok (fuel : nat) (m : method) (buf : ArrayBuffer) (s : Semaphore) :
  flags_ok s = true -> flags_ok (handle_of (snd (call fuel m buf s))) = true.
Proof.
  intros H. unfold call. destruct (enter m s) as [e|f] eqn:E; [exact H|].
  apply exec_flags_ok. now apply enter_passes in E.
Qed.

Lemma calls_flags_ok (fuel : nat) (ms : list method) :
  forall (buf : ArrayBuffer) (s : Semaphore),
  flags_ok s = true ->
  Forall (fun o => flags_ok (handle_of o) = true) (calls fuel ms buf s).
Proof.
  induction ms as [|m ms IH]; intros buf s H; [constructor|].
  cbn [calls]. pose proof (call_flags_ok fuel m buf s H) as Hc.
  constructor; [exact Hc|].
  destruct (snd (call fuel m buf s)); simpl in Hc; auto.
Qed.

(** Several handles. *)
Lemma sys_step_wf (sigma sigma' : system) :
  sys_step sigma sigma' ->
  Forall wf_agent (agents sigma) -> Forall wf_agent (agents sigma').
Proof.
  intros Hstep Hwf. destruct Hstep as [sigma i a m Hi Hd | sigma i a f Hi Hd]; simpl.
  - apply Forall_insert; [exact Hwf|].
    apply after_enter_wf.
    apply (wf_agent_flags_ok a). eapply Forall_lookup_1; eauto.
  - assert (Ha : wf_agent a) by (eapply Forall_lookup_1; eauto).
    unfold wf_agent in Ha. rewrite Hd in Ha. destruct Ha as [Hp Hl].
    apply Forall_insert; [|now apply after_step_wf].
    destruct (notified f _); [|exact Hwf].
    apply Forall_fmap. eapply Forall_impl; [exact Hwf|]. intros x. apply wake_wf.
Qed.

Lemma reachable_wf (sigma0 sigma : system) :
  reachable sigma0 sigma ->
  Forall wf_agent (agents sigma0) -> Forall wf_agent (agents sigma).
Proof.
  induction 1 as [|x y z Hxy _ IH]; [auto|]. intros H. apply IH.
  eapply sys_step_wf; eauto.
Qed.

Lemma initial_wf (buf : ArrayBuffer) (s : Semaphore) (n : nat) :
  flags_ok s = true -> Forall wf_agent (agents (initial buf s n)).
Proof. intros H. simpl. apply Forall_replicate. exact H. Qed.

(** C7.  [haveWriteLock] and [haveReadLock] are never both set: not on the
    handle [new] or [from] returns; not after any call of any sequence of
    calls on one handle, whatever the buffer holds and however each call
    ends; not on any handle of any reachable state of several handles
    interleaved. *)
Theorem flags_never_both (buf : ArrayBuffer) (s : Semaphore) :
  ((exists c, new c = inr (buf, s)) \/ from buf = inr s -> flags_ok s = true) /\
  (flags_ok s = true ->
   forall fuel ms,
     Forall (fun o => flags_ok (handle_of o) = true) (calls fuel ms buf s)) /\
  (flags_ok s = true ->
   forall n sigma, reachable (initial buf s n) sigma ->
     Forall (fun a => flags_ok (handle a) = true) (agents sigma)).
Proof.
  split; [|split].
  - intros [[c H] | H].
    + destruct c; injection H as <- <-; reflexivity.
    + unfold from, constructor in H. destruct (Int32Array buf); [discriminate|].
      injection H as <-. reflexivity.
  - intros H fuel ms. now apply calls_flags_ok.
  - intros H n sigma Hr.
    eapply Forall_impl; [|exact wf_agent_flags_ok].
    eapply reachable_wf; [exact Hr|]. now apply initial_wf.
Qed.

Lemma flags_never_both_witness :
  flags_ok fresh = true /\
  Forall (fun o => flags_ok (handle_of o) = true)
         (calls 3 [WriteLock; ReadLock; WriteUnlock; ReadUnlock; ReadLock]
                (buffer_at 0) fresh) /\
  Forall (fun a => flags_ok (handle a) = true) (agents (initial (buffer_at 0) fresh 2)).
Proof.
  split; [|split].
  - apply (proj1 (flags_never_both (buffer_at 0) fresh)). right. reflexivity.
  - apply (proj1 (proj2 (flags_never_both (buffer_at 0) fresh))). reflexivity.
  - apply (proj2 (proj2 (flags_never_both (buffer_at 0) fresh)) eq_refl 2%nat).
    apply rtc_refl.
Defined.

(** ** Several handles: the word counts the acquisitions *)

Lemma count_bounds (p : agent -> bool) (l : list agent) :
  0 <= count p l <= Z.of_nat (length l).
Proof.
  induction l as [|a l IH]; simpl; [lia|]. destruct (p a); lia.
Qed.

Lemma count_insert (p : agent -> bool) (l : list agent) (i : nat) (a a' : agent) :
  l !! i = Some a ->
  count p (<[i := a']> l) =
  count p l - (if p a then 1 else 0) + (if p a' then 1 else 0).
Proof.
  revert i. induction l as [|x l IH]; intros [|i] H; try discriminate; simpl in *.
  - injection H as ->. lia.
  - rewrite (IH i H). lia.
Qed.

Lemma count_fmap (p : agent -> bool) (g : agent -> agent) (l : list agent) :
  Forall (fun a => p (g a) = p a) l -> count p (g <$> l) = count p l.
Proof.
  induction 1 as [|a l Ha _ IH]; [reflexivity|].
  rewrite fmap_cons. cbn [count]. now rewrite Ha, IH.
Qed.

Lemma count_lookup (p : agent -> bool) (l : list agent) (i : nat) (a : agent) :
  l !! i = Some a -> p a = true -> 1 <= count p l.
Proof.
  revert i. induction l as [|x l IH]; intros [|i] H Hp; try discriminate; simpl in *.
  - injection H as ->. rewrite Hp. pose proof (count_bounds p l). lia.
  - specialize (IH i H Hp). destruct (p x); lia.
Qed.

Lemma count_one (p : agent -> bool) (l : list agent) (i j : nat) (ai aj : agent) :
  count p l <= 1 -> i <> j ->
  l !! i = Some ai -> l !! j = Some aj ->
  ~ (p ai = true /\ p aj = true).
Proof.
  revert i j. induction l as [|x l IH]; intros i j Hc Hij Hi Hj [Hpi Hpj];
    [destruct i; discriminate|].
  simpl in Hc.
  destruct i as [|i], j as [|j]; simpl in Hi, Hj; try congruence.
  - injection Hi as ->. rewrite Hpi in Hc.
    pose proof (count_lookup p l j aj Hj Hpj). lia.
  - injection Hj as ->. rewrite Hpj in Hc.
    pose proof (count_lookup p l i ai Hi Hpi). lia.
  - apply (IH i j); auto; [destruct (p x); lia].
Qed.

Lemma wake_outstanding (a : agent) :
  wf_agent a ->
  write_outstanding (wake a) = write_outstanding a /\
  read_outstanding (wake a) = read_outstanding a.
Proof.
  unfold wf_agent, wake, write_outstanding, read_outstanding.
  destruct a as [s [|f|f]]; simpl; auto.
  intros (_ & _ & Hn). destruct f; try discriminate; auto.
Qed.

Lemma after_enter_outstanding (m : method) (s : Semaphore) :
  let a := {| handle := s; doing := Idle |} in
  write_outstanding (after_enter s (enter m s)) = write_outstanding a /\
  read_outstanding (after_enter s (enter m s)) = read_outstanding a.
Proof. destruct s as [[] []], m; split; reflexivity. Qed.

Lemma step_effect (buf : ArrayBuffer) (s : Semaphore) (f : frame) (w : Z) :
  passes (method_of f) s = true -> lockState_ok f -> word buf = Some w ->
  exists w',
    word (memory_after buf (step buf s f)) = Some w' /\
    effect w w' {| handle := s; doing := Running f |} (after_step s (step buf s f)).
Proof.
  intros Hp Hl Hw. pose proof (word_range _ _ Hw) as Hr.
  destruct f; destruct s as [[] []]; try (cbv in Hp; discriminate); clear Hp.
  - (* writeLock: compareExchange *)
    destruct (Z.eq_dec w 0) as [->|Hn].
    + rewrite (step_writeLock_hit _ _ Hw). eexists. split; [word_known|].
      now apply eff_write_acquire.
    + rewrite (step_writeLock_miss _ _ _ Hw Hn). exists w. split; [exact Hw|].
      now apply eff_none.
  - (* writeLock: wait *)
    unfold step. rewrite (wait_word _ _ _ Hw).
    destruct (negb (isShared buf)); [|destruct (w =? ToInt32 lockState)];
      exists w; (split; [exact Hw|]); now apply eff_none.
  - (* writeLock: notify *)
    erewrite step_notify by (eauto; reflexivity).
    exists w. split; [exact Hw|]. now apply eff_none.
  - (* writeUnlock: compareExchange *)
    destruct (Z.eq_dec w (-1)) as [->|Hn].
    + rewrite (step_writeUnlock_hit _ _ Hw). eexists. split; [word_known|].
      now apply eff_write_release.
    + rewrite (step_writeUnlock_miss _ _ _ Hw Hn). exists w. split; [exact Hw|].
      now apply eff_none.
  - (* writeUnlock: notify *)
    erewrite step_notify by (eauto; reflexivity).
    exists w. split; [exact Hw|]. now apply eff_none.
  - (* readLock: compareExchange *)
    simpl in Hl. destruct Hl as [Hl Hl1].
    destruct (Z.eq_dec w lockState) as [->|Hn].
    + rewrite (step_readLock_hit _ _ _ Hw). eexists. split; [word_known|].
      now apply eff_read_acquire.
    + unfold step. rewrite (compareExchange_word _ _ _ _ Hw), (ToInt32_small _ Hl).
      destruct (Z.eqb_spec w lockState); [contradiction|].
      destruct (w =? -1); exists w; (split; [exact Hw|]); now apply eff_none.
  - (* readLock: wait *)
    unfold step. rewrite (wait_word _ _ _ Hw).
    destruct (negb (isShared buf)); [|destruct (w =? ToInt32 WRITE_LOCKED)];
      exists w; (split; [exact Hw|]); now apply eff_none.
  - (* readLock: notify *)
    erewrite step_notify by (eauto; reflexivity).
    exists w. split; [exact Hw|]. now apply eff_none.
  - (* readUnlock: compareExchange *)
    simpl in Hl. destruct Hl as [Hl Hl1].
    destruct (Z.eq_dec w lockState) as [->|Hn].
    + rewrite (step_readUnlock_hit _ _ _ Hw). eexists. split; [word_known|].
      now apply eff_read_release.
    + unfold step. rewrite (compareExchange_word _ _ _ _ Hw), (ToInt32_small _ Hl).
      destruct (Z.eqb_spec w lockState); [contradiction|].
      destruct (w =? WRITE_LOCKED); exists w; (split; [exact Hw|]); now apply eff_none.
  - (* readUnlock: notify *)
    erewrite step_notify by (eauto; reflexivity).
    exists w. split; [exact Hw|]. now apply eff_none.
Qed.

Lemma sys_step_inv (sigma sigma' : system) :
  sys_step sigma sigma' -> lock_inv sigma -> lock_inv sigma'.
Proof.
  intros Hstep (Hwf & Hlen & w & Hw & Hcases).
  split; [eapply sys_step_wf; eauto|].
  unfold writers, readers in *.
  destruct Hstep as [sigma i a m Hi Hd | sigma i a f Hi Hd]; simpl.
  - rewrite length_insert. split; [exact Hlen|]. exists w. split; [exact Hw|].
    destruct (after_enter_outstanding m (handle a)) as [Ew Er].
    rewrite !(count_insert _ _ _ _ _ Hi), Ew, Er.
    destruct a as [s d]; simpl in Hd; subst d. simpl. lia.
  - destruct a as [s d]; simpl in Hd; subst d; simpl.
    assert (Ha : wf_agent {| handle := s; doing := Running f |})
      by (eapply Forall_lookup_1; eauto).
    destruct Ha as [Hp Hl]; simpl in Hp, Hl.
    destruct (step_effect _ _ _ _ Hp Hl Hw) as (w' & Hw' & Heff).
    set (r := step (memory sigma) s f) in *.
    set (a := {| handle := s; doing := Running f |}) in *.
    set (l := if notified f r then wake <$> agents sigma else agents sigma).
    assert (Hli : l !! i = Some a).
    { subst l. destruct (notified f r); [|exact Hi].
      now rewrite list_lookup_fmap, Hi. }
    assert (Hlw : count write_outstanding l = count write_outstanding (agents sigma)
                  /\ count read_outstanding l = count read_outstanding (agents sigma)
                  /\ length l = length (agents sigma)).
    { subst l. destruct (notified f r); [|auto].
      rewrite length_fmap. repeat split; apply count_fmap;
        (eapply Forall_impl; [exact Hwf|]); intros x Hx; now apply wake_outstanding. }
    destruct Hlw as (Ecw & Ecr & Elen).
    rewrite length_insert, Elen. split; [exact Hlen|].
    exists w'. split; [exact Hw'|].
    pose proof (count_bounds read_outstanding (<[i := after_step s r]> l)) as Hb.
    rewrite length_insert, Elen in Hb.
    pose proof (count_bounds read_outstanding (agents sigma)) as Hbr.
    pose proof (count_bounds write_outstanding (agents sigma)) as Hbw.
    rewrite (count_insert _ _ _ _ _ Hli), Ecr in Hb.
    rewrite !(count_insert _ _ _ _ _ Hli), Ecw, Ecr.
    pose proof (word_range _ _ Hw) as Hwr.
    change (2 ^ 31) with 2147483648 in *.
    destruct Heff as [-> Ew Er | -> -> Ew Ew' Er Er' | -> -> Ew Ew' Er Er'
                     | Hn -> Ew Ew' Er Er' | Hn -> Ew Ew' Er Er'].
    + rewrite Ew, Er.
      destruct (write_outstanding a), (read_outstanding a); lia.
    + rewrite Ew, Er, Ew', Er'. lia.
    + rewrite Ew, Er, Ew', Er'. lia.
    + rewrite Ew, Er, Ew', Er' in *.
      destruct Hcases as [(? & ? & ?) | (E & ?)]; [lia|]. right.
      rewrite ToInt32_small by (change (2 ^ 31) with 2147483648; lia). lia.
    + rewrite Ew, Er, Ew', Er' in *.
      destruct Hcases as [(? & ? & ?) | (E & ?)]; [lia|]. right.
      rewrite ToInt32_small by (change (2 ^ 31) with 2147483648; lia). lia.
Qed.

Lemma reachable_inv (sigma0 sigma : system) :
  reachable sigma0 sigma -> lock_inv sigma0 -> lock_inv sigma.
Proof.
  induction 1 as [|x y z Hxy _ IH]; [auto|]. intros H. apply IH.
  eapply sys_step_inv; eauto.
Qed.

Lemma count_replicate_idle (p : agent -> bool) (a : agent) (n : nat) :
  p a = false -> count p (replicate n a) = 0.
Proof. intros H. induction n as [|n IH]; simpl; [reflexivity|]. now rewrite H, IH. Qed.

Lemma initial_inv (buf : ArrayBuffer) (n : nat) :
  word buf = Some 0 -> Z.of_nat n < 2 ^ 31 -> lock_inv (initial buf fresh n).
Proof.
  intros Hw Hn. split; [now apply initial_wf|]. split.
  - simpl. now rewrite length_replicate.
  - exists 0. split; [exact Hw|]. right. unfold readers, writers. simpl.
    now rewrite !count_replicate_idle.
Qed.

(** ** Mutual exclusion of writers *)

(** C2.  Handles of one lock made by [new], interleaved in any way: at
    most one write acquisition is outstanding at any time; the word is
    [-1] exactly when one is; and no two handles have one at once. *)
Theorem write_mutual_exclusion (c : arrayBufferConstructor) (buf : ArrayBuffer)
    (s : Semaphore) (n : nat) (sigma : system) :
  new c = inr (buf, s) ->
  Z.of_nat n < 2 ^ 31 ->
  reachable (initial buf s n) sigma ->
  writers sigma <= 1 /\
  (word (memory sigma) = Some (-1) <-> writers sigma = 1) /\
  (forall i j ai aj, i <> j ->
     agents sigma !! i = Some ai -> agents sigma !! j = Some aj ->
     ~ (write_outstanding ai = true /\ write_outstanding aj = true)).
Proof.
  intros Hnew Hn Hreach.
  assert (Hb : word buf = Some 0 /\ s = fresh).
  { destruct c; injection Hnew as <- <-; split; reflexivity. }
  destruct Hb as [Hw ->].
  destruct (reachable_inv _ _ Hreach (initial_inv buf n Hw Hn))
    as (Hwf & Hlen & w & Hw' & Hcases).
  pose proof (count_bounds read_outstanding (agents sigma)) as Hbr.
  fold (readers sigma) in Hbr.
  assert (H1 : writers sigma <= 1) by lia.
  split; [exact H1|]. split.
  - rewrite Hw'. split; [intros [= ->]; lia | intros E; f_equal; lia].
  - intros i j ai aj Hij Hi Hj. eapply count_one; eauto.
Qed.

Lemma one_writer_reachable :
  reachable (initial (construct SharedArrayBufferCtor 4) fresh 2) one_writer.
Proof.
  eapply rtc_l; [eapply (sys_call _ 0%nat _ WriteLock); reflexivity|].
  eapply rtc_l; [eapply (sys_call _ 1%nat _ WriteLock); reflexivity|].
  eapply rtc_l; [eapply (sys_run _ 0%nat); reflexivity|].
  apply rtc_refl.
Defined.

Lemma write_mutual_exclusion_witness :
  writers one_writer <= 1 /\
  (word (memory one_writer) = Some (-1) <-> writers one_writer = 1) /\
  (forall i j ai aj, i <> j ->
     agents one_writer !! i = Some ai -> agents one_writer !! j = Some aj ->
     ~ (write_outstanding ai = true /\ write_outstanding aj = true)).
Proof.
  apply (write_mutual_exclusion SharedArrayBufferCtor
           (construct SharedArrayBufferCtor 4) fresh 2 one_writer).
  - reflexivity.
  - vm_compute. reflexivity.
  - exact one_writer_reachable.
Defined.

(** * Further properties *)

(** ** A call without interference *)

Lemma step_wait_same (buf : ArrayBuffer) (w : Z) :
  word buf = Some w ->
  Atomics_wait buf BYTE_OFFSET w =
  if isShared buf then inr asleep else inl TypeError.
Proof.
  intros H. rewrite (wait_word _ _ _ H), (ToInt32_small _ (word_range _ _ H)).
  rewrite Z.eqb_refl. now destruct (isShared buf).
Qed.

Lemma step_readLock_locked (buf : ArrayBuffer) (s : Semaphore) (l : Z) :
  word buf = Some (-1) -> - 2 ^ 31 <= l < 2 ^ 31 -> l <> -1 ->
  step buf s (readLock_compareExchange l) = Goto buf readLock_wait.
Proof.
  intros H Hr Hl. unfold step. rewrite (compareExchange_word _ _ _ _ H).
  rewrite (ToInt32_small l Hr).
  destruct (Z.eqb_spec (-1) l); [congruence|]. reflexivity.
Qed.

Lemma step_no_word (buf : ArrayBuffer) (s : Semaphore) (f : frame) :
  word buf = None -> is_notify f = false ->
  (forall l, f <> writeLock_wait l) -> f <> readLock_wait ->
  step buf s f = Throw (no_word buf).
Proof.
  unfold word, no_word. intros H Hn Hw Hr.
  destruct f; try discriminate; try congruence;
    try (exfalso; eapply Hw; reflexivity);
    unfold step, Atomics_compareExchange; rewrite H;
    now destruct (isDetached buf).
Qed.

Lemma exec_entry_alone (fuel : nat) (m : method) (buf : ArrayBuffer)
    (s : Semaphore) (f : frame) :
  enter m s = inr f -> (3 <= fuel)%nat ->
  exec fuel buf s f = alone_body m buf s.
Proof.
  intros He Hfuel. destruct fuel as [|[|[|fuel]]]; try lia.
  assert (Hf : f = match m with
                   | WriteLock => writeLock_compareExchange
                   | WriteUnlock => writeUnlock_compareExchange
                   | ReadLock => readLock_compareExchange UNLOCKED
                   | ReadUnlock => readUnlock_compareExchange 1
                   end).
  { destruct m, s as [[] []]; simpl in He; congruence. }
  subst f. clear He. unfold alone_body.
  destruct (word buf) as [w|] eqn:Hw.
  2:{ destruct m; rewrite exec_S, step_no_word by (auto; discriminate); reflexivity. }
  pose proof (word_range _ _ Hw) as Hr.
  destruct m.
  - destruct (Z.eqb_spec w 0) as [->|Hn].
    + rewrite exec_S, (step_writeLock_hit _ _ Hw).
      erewrite exec_notify; [reflexivity | word_known | reflexivity].
    + rewrite exec_S, (step_writeLock_miss _ _ _ Hw Hn).
      rewrite exec_S. unfold step. rewrite (step_wait_same _ _ Hw).
      unfold stuck. now destruct (isShared buf).
  - destruct (Z.eqb_spec w (-1)) as [->|Hn].
    + rewrite exec_S, (step_writeUnlock_hit _ _ Hw).
      erewrite exec_notify; [reflexivity | word_known | reflexivity].
    + rewrite exec_S, (step_writeUnlock_miss _ _ _ Hw Hn). reflexivity.
  - destruct (Z.eqb_spec w 0) as [->|Hn]; [|destruct (Z.eqb_spec w (-1)) as [->|Hn1]].
    + rewrite exec_S, (step_readLock_hit _ _ _ Hw).
      erewrite exec_notify; [reflexivity | word_known | reflexivity].
    + rewrite exec_S, (step_readLock_locked _ _ UNLOCKED Hw) by (unfold UNLOCKED; lia).
      rewrite exec_S. unfold step.
      change WRITE_LOCKED with (-1). rewrite (step_wait_same _ _ Hw).
      unfold stuck. now destruct (isShared buf).
    + rewrite exec_S, (step_readLock_miss _ _ w UNLOCKED Hw) by (unfold UNLOCKED; lia).
      rewrite exec_S, (step_readLock_hit _ _ _ Hw).
      erewrite exec_notify; [reflexivity | word_known | reflexivity].
  - destruct (Z.eqb_spec w 1) as [->|Hn]; [|destruct (Z.eqb_spec w (-1)) as [->|Hn1]].
    + rewrite exec_S, (step_readUnlock_hit _ _ _ Hw).
      erewrite exec_notify; [reflexivity | word_known | reflexivity].
    + rewrite exec_S, (step_readUnlock_overridden _ _ 1 Hw) by lia. reflexivity.
    + rewrite exec_S, (step_readUnlock_miss _ _ w 1 Hw) by lia.
      rewrite exec_S, (step_readUnlock_hit _ _ _ Hw).
      erewrite exec_notify; [reflexivity | word_known | reflexivity].
Qed.

Lemma call_alone (fuel : nat) (m : method) (buf : ArrayBuffer) (s : Semaphore) :
  (3 <= fuel)%nat -> call fuel m buf s = alone m buf s.
Proof.
  intros Hfuel. unfold call, alone.
  destruct (enter m s) as [e|f] eqn:He; [reflexivity|].
  now apply exec_entry_alone.
Qed.

Lemma exec_more_fuel (n k : nat) :
  forall (buf : ArrayBuffer) (s : Semaphore) (f : frame),
  out_of_fuel (snd (exec n buf s f)) = false ->
  exec (n + k) buf s f = exec n buf s f.
Proof.
  induction n as [|n IH]; intros buf s f H; [discriminate|].
  change (S n + k)%nat with (S (n + k)). rewrite !exec_S in *.
  destruct (step buf s f) as [buf' f'| | |]; try reflexivity.
  specialize (IH buf' s f').
  destruct (exec n buf' s f') as [t o]. simpl in H. now rewrite (IH H).
Qed.

Lemma call_finished (fuel : nat) (m : method) (buf : ArrayBuffer) (s : Semaphore) :
  out_of_fuel (snd (call fuel m buf s)) = false ->
  call fuel m buf s = alone m buf s.
Proof.
  intros H. rewrite <- (call_alone (fuel + 3)) by lia.
  unfold call in *. destruct (enter m s); [reflexivity|].
  symmetry. now apply exec_more_fuel.
Qed.

Ltac alone_cases buf :=
  unfold alone, alone_body, stuck;
  let w := fresh "w" in
  let Hw := fresh "Hw" in
  let Hsh := fresh "Hsh" in
  destruct (word buf) as [w|] eqn:Hw;
  destruct (isShared buf) eqn:Hsh;
  repeat match goal with
         | |- context [if ?x =? ?y then _ else _] => destruct (Z.eqb_spec x y)
         end.

(** X1.  A call that nobody interferes with makes at most three [Atomics]
    calls and then returns, throws or goes to sleep: with fuel for three
    steps it never runs out, and more fuel changes nothing. *)
Theorem call_alone_bounded (fuel : nat) (m : method) (buf : ArrayBuffer) (s : Semaphore) :
  (3 <= fuel)%nat ->
  call fuel m buf s = call 3 m buf s /\
  out_of_fuel (snd (call 3 m buf s)) = false /\
  (length (fst (call 3 m buf s)) <= 3)%nat.
Proof.
  intros Hfuel. rewrite (call_alone fuel) by exact Hfuel.
  rewrite (call_alone 3) by lia. split; [reflexivity|].
  destruct (enter m s) as [e|f] eqn:He; unfold alone; rewrite He;
    [split; [reflexivity | simpl; lia]|].
  destruct m; alone_cases buf; simpl; split; (reflexivity || lia).
Qed.

Lemma call_alone_bounded_witness :
  call 7 ReadLock (buffer_at 5) fresh = call 3 ReadLock (buffer_at 5) fresh /\
  out_of_fuel (snd (call 3 ReadLock (buffer_at 5) fresh)) = false /\
  (length (fst (call 3 ReadLock (buffer_at 5) fresh)) <= 3)%nat.
Proof. apply (call_alone_bounded 7 ReadLock (buffer_at 5) fresh). lia. Defined.

(** X2.  A call that throws or goes to sleep has changed nothing: the
    buffer and the flags are those it started with. *)
Theorem failed_call_no_effect (fuel : nat) (m : method) (buf : ArrayBuffer)
    (s : Semaphore) :
  match snd (call fuel m buf s) with
  | Thrown _ buf' s' | Blocked buf' s' => buf' = buf /\ s' = s
  | Returned _ _ | OutOfFuel _ _ => True
  end.
Proof.
  destruct (out_of_fuel (snd (call fuel m buf s))) eqn:Hfin.
  - destruct (snd (call fuel m buf s)); try discriminate. exact I.
  - rewrite (call_finished _ _ _ _ Hfin).
    unfold alone. destruct (enter m s) as [e0|f]; [simpl; auto|].
    destruct m; alone_cases buf; simpl; auto.
Qed.

(** X3.  Acquiring a lock that is busy, with nobody to release it:
    [writeLock] on a word other than [0] and [readLock] on a word at [-1]
    make one [compareExchange] and one [wait]; on a shared buffer the call
    sleeps for ever, on a buffer that is not shared [Atomics.wait] throws a
    [TypeError].  Nothing is written either way. *)
Theorem busy_lock_alone (fuel : nat) (buf : ArrayBuffer) (s : Semaphore) (w : Z) :
  word buf = Some w -> (3 <= fuel)%nat ->
  haveWriteLock s = false -> haveReadLock s = false ->
  (w <> 0 ->
   writeLock fuel buf s =
   ([CompareExchange UNLOCKED WRITE_LOCKED; Wait w],
    if isShared buf then Blocked buf s else Thrown TypeError buf s)) /\
  (w = -1 ->
   readLock fuel buf s =
   ([CompareExchange UNLOCKED (UNLOCKED + 1); Wait WRITE_LOCKED],
    if isShared buf then Blocked buf s else Thrown TypeError buf s)).
Proof.
  intros Hw Hfuel Hhw Hhr. destruct s as [hw hr]; simpl in Hhw, Hhr; subst hw hr.
  unfold writeLock, readLock. rewrite !call_alone by exact Hfuel.
  unfold alone, alone_body, stuck. cbn [enter haveWriteLock haveReadLock]. rewrite Hw.
  split.
  - intros Hn. destruct (Z.eqb_spec w 0); [contradiction | reflexivity].
  - intros ->. reflexivity.
Qed.

Lemma busy_lock_alone_witness :
  writeLock 3 (buffer_at 2) fresh =
  ([CompareExchange UNLOCKED WRITE_LOCKED; Wait 2], Blocked (buffer_at 2) fresh) /\
  readLock 3 (view_set (construct ArrayBufferCtor 4) BYTE_OFFSET (-1)) fresh =
  ([CompareExchange UNLOCKED (UNLOCKED + 1); Wait WRITE_LOCKED],
   Thrown TypeError (view_set (construct ArrayBufferCtor 4) BYTE_OFFSET (-1)) fresh).
Proof.
  split.
  - apply (proj1 (busy_lock_alone 3 (buffer_at 2) fresh 2
                    eq_refl (le_n 3) eq_refl eq_refl)). lia.
  - apply (proj2 (busy_lock_alone 3
                    (view_set (construct ArrayBufferCtor 4) BYTE_OFFSET (-1)) fresh (-1)
                    eq_refl (le_n 3) eq_refl eq_refl)). reflexivity.
Defined.

Lemma word_None_iff (buf : ArrayBuffer) :
  word buf = None <-> (byteLength buf < 4)%nat.
Proof.
  unfold word, view_get, byteLength, BYTE_OFFSET. simpl.
  destruct (isDetached buf); [split; [lia | reflexivity]|].
  destruct (contents buf) as [|b0 [|b1 [|b2 [|b3 rest]]]]; simpl;
    split; intros H; try reflexivity; try discriminate; lia.
Qed.

(** X4.  A buffer of fewer than four bytes has no lock word; that is the
    empty buffer [from] accepts, a resizable buffer that is or has become
    too short, and a buffer that has been detached (its length is [0]).
    On such a buffer every call the guards let through stops at its first
    [compareExchange], which throws a [TypeError] when the buffer is
    detached and a [RangeError] otherwise; the buffer and the flags are
    left as they were. *)
Theorem no_lock_word_exception (fuel : nat) (m : method) (buf : ArrayBuffer)
    (s : Semaphore) :
  (byteLength buf < 4)%nat -> (1 <= fuel)%nat -> passes m s = true ->
  exists a,
    call fuel m buf s =
    ([a], Thrown (if isDetached buf then TypeError else RangeError) buf s).
Proof.
  intros Hlen Hfuel Hp. apply word_None_iff in Hlen.
  destruct fuel as [|fuel]; [lia|].
  unfold call. unfold passes in Hp.
  destruct (enter m s) as [e|f] eqn:He; [discriminate|].
  exists (access_of f). rewrite exec_S, step_no_word; [reflexivity | exact Hlen | | |];
    destruct m, s as [[] []]; simpl in He; try discriminate;
    injection He as <-; (reflexivity || discriminate).
Qed.

Lemma no_lock_word_exception_witness :
  (exists a,
     call 1 WriteLock
       {| isShared := true; isResizable := false; isDetached := false; contents := [] |}
       fresh
     = ([a], Thrown RangeError
               {| isShared := true; isResizable := false; isDetached := false;
                  contents := [] |} fresh)) /\
  (exists a,
     call 1 ReadUnlock
       {| isShared := false; isResizable := false; isDetached := true; contents := [] |}
       holding_read
     = ([a], Thrown TypeError
               {| isShared := false; isResizable := false; isDetached := true;
                  contents := [] |} holding_read)).
Proof.
  split.
  - apply (no_lock_word_exception 1 WriteLock
             {| isShared := true; isResizable := false; isDetached := false;
                contents := [] |} fresh).
    + unfold byteLength. simpl. lia.
    + apply le_n.
    + reflexivity.
  - apply (no_lock_word_exception 1 ReadUnlock
             {| isShared := false; isResizable := false; isDetached := true;
                contents := [] |} holding_read).
    + unfold byteLength. simpl. lia.
    + apply le_n.
    + reflexivity.
Defined.

Lemma ToInt32_succ_pred (n : Z) :
  - 2 ^ 31 <= n < 2 ^ 31 -> ToInt32 (ToInt32 (n + 1) - 1) = n.
Proof.
  intros Hn. destruct (Z.eq_dec n (2 ^ 31 - 1)) as [->|Hne]; [reflexivity|].
  rewrite (ToInt32_small (n + 1)) by lia.
  replace (n + 1 - 1) with n by lia. now apply ToInt32_small.
Qed.

(** X5.  [readLock] followed by [readUnlock] on the same handle brings the
    word back to where it was, whatever other readers the word records:
    for every word except [-1] (where [readLock] waits) and [-2] (which
    [readLock] turns into [-1]); on the largest word the value in between
    is the wrapped one. *)
Theorem readLock_readUnlock_round_trip (fuel : nat) (buf : ArrayBuffer)
    (s : Semaphore) (n : Z) :
  word buf = Some n -> n <> -1 -> n <> -2 ->
  haveWriteLock s = false -> haveReadLock s = false ->
  (3 <= fuel)%nat ->
  exists buf1 s1 buf2,
    snd (readLock fuel buf s) = Returned buf1 s1 /\
    word buf1 = Some (ToInt32 (n + 1)) /\ haveReadLock s1 = true /\
    snd (readUnlock fuel buf1 s1) = Returned buf2 s /\
    word buf2 = Some n.
Proof.
  intros Hw Hn1 Hn2 Hhw Hhr Hfuel. pose proof (word_range _ _ Hw) as Hr.
  destruct s as [hw hr]; simpl in Hhw, Hhr; subst hw hr.
  assert (Hm : ToInt32 (n + 1) <> -1).
  { destruct (Z.eq_dec n (2 ^ 31 - 1)) as [->|Hne]; [discriminate|].
    rewrite ToInt32_small by lia. lia. }
  exists (view_set buf BYTE_OFFSET (n + 1)), holding_read,
         (view_set (view_set buf BYTE_OFFSET (n + 1)) BYTE_OFFSET (ToInt32 (n + 1) - 1)).
  assert (H1 : snd (readLock fuel buf {| haveWriteLock := false; haveReadLock := false |})
               = Returned (view_set buf BYTE_OFFSET (n + 1)) holding_read).
  { unfold readLock. rewrite call_alone by exact Hfuel.
    unfold alone, alone_body. cbn [enter haveWriteLock haveReadLock]. rewrite Hw.
    destruct (Z.eqb_spec n 0) as [->|]; [reflexivity|].
    destruct (Z.eqb_spec n (-1)); [contradiction | reflexivity]. }
  split; [exact H1|]. split; [word_known|]. split; [reflexivity|].
  split.
  - unfold readUnlock. rewrite call_alone by exact Hfuel.
    unfold alone, alone_body. cbn [enter holding_read haveWriteLock haveReadLock negb].
    erewrite word_view_set by word_known.
    destruct (Z.eqb_spec (ToInt32 (n + 1)) 1) as [E|]; [rewrite E; reflexivity|].
    destruct (Z.eqb_spec (ToInt32 (n + 1)) (-1)); [contradiction | reflexivity].
  - erewrite word_view_set by word_known. f_equal. now apply ToInt32_succ_pred.
Qed.

Lemma readLock_readUnlock_round_trip_witness :
  exists buf1 s1 buf2,
    snd (readLock 3 (buffer_at 2147483647) fresh) = Returned buf1 s1 /\
    word buf1 = Some (ToInt32 (2147483647 + 1)) /\ haveReadLock s1 = true /\
    snd (readUnlock 3 buf1 s1) = Returned buf2 fresh /\
    word buf2 = Some 2147483647.
Proof.
  apply (readLock_readUnlock_round_trip 3 (buffer_at 2147483647) fresh 2147483647);
    [reflexivity | lia | lia | reflexivity | reflexivity | apply le_n].
Defined.

Ltac eval_kind :=
  match goal with
  | |- context [kind_of ?e] =>
      let k := eval vm_compute in (kind_of e) in change (kind_of e) with k
  end; cbv iota.

(** X6.  Every exception of a call made alone has its cause.  A protocol
    violation means the call was a misuse; a corruption error means both
    flags were set, or [writeUnlock] found a word other than [-1], or
    [readUnlock] found the word at [-1]; a [RangeError] means the buffer
    is attached and has fewer than four bytes; a [TypeError] means the
    buffer is detached, or the lock was busy on an attached buffer that is
    not shared. *)
Theorem exceptions_alone (fuel : nat) (m : method) (buf buf' : ArrayBuffer)
    (s s' : Semaphore) (e : exn) :
  snd (call fuel m buf s) = Thrown e buf' s' ->
  match e with
  | Error _ =>
      match kind_of e with
      | Some ProtocolViolation => misuse m s = true
      | _ =>
          (haveWriteLock s = true /\ haveReadLock s = true) \/
          (m = WriteUnlock /\ word buf <> Some (-1)) \/
          (m = ReadUnlock /\ word buf = Some (-1))
      end
  | RangeError => isDetached buf = false /\ (byteLength buf < 4)%nat
  | TypeError =>
      isDetached buf = true \/
      (isDetached buf = false /\ isShared buf = false /\
       ((m = WriteLock /\ word buf <> Some 0) \/ (m = ReadLock /\ word buf = Some (-1))))
  end.
Proof.
  intros H.
  assert (Hfin : out_of_fuel (snd (call fuel m buf s)) = false) by now rewrite H.
  rewrite (call_finished _ _ _ _ Hfin) in H. revert H. unfold alone.
  destruct (enter m s) as [e0|f] eqn:He.
  - simpl. intros [= <- _ _].
    destruct m, s as [[] []]; simpl in He; try discriminate;
      injection He as <-; eval_kind; simpl; auto.
  - clear He. pose proof (word_None_iff buf) as Hnone.
    destruct m; alone_cases buf; unfold no_word;
      destruct (isDetached buf) eqn:Hdet;
      try (match goal with
           | Hs : word buf = Some _ |- _ => apply word_attached in Hs; congruence
           end);
      simpl snd; intros [= <- _ _];
      try (split; [reflexivity | apply Hnone; reflexivity]);
      try (left; reflexivity);
      try eval_kind;
      try (right; split; [reflexivity|]; split; [reflexivity|]);
      try (left; split; [reflexivity | congruence]);
      try (right; left; split; [reflexivity | congruence]);
      try (right; right; split; [reflexivity | congruence]);
      try (right; split; [reflexivity | congruence]).
Qed.

Lemma exceptions_alone_witness :
  ((haveWriteLock holding_write = true /\ haveReadLock holding_write = true) \/
   (WriteUnlock = WriteUnlock /\ word (buffer_at 3) <> Some (-1)) \/
   (WriteUnlock = ReadUnlock /\ word (buffer_at 3) = Some (-1))) /\
  (isDetached {| isShared := false; isResizable := false; isDetached := true;
                 contents := [] |} = true \/
   (isDetached {| isShared := false; isResizable := false; isDetached := true;
                  contents := [] |} = false /\
    isShared {| isShared := false; isResizable := false; isDetached := true;
                contents := [] |} = false /\
    ((WriteLock = WriteLock /\
      word {| isShared := false; isResizable := false; isDetached := true;
              contents := [] |} <> Some 0) \/
     (WriteLock = ReadLock /\
      word {| isShared := false; isResizable := false; isDetached := true;
              contents := [] |} = Some (-1))))).
Proof.
  split.
  - exact (exceptions_alone 1 WriteUnlock (buffer_at 3) (buffer_at 3)
             holding_write holding_write
             (Error "Semaphore corrupted: holding write lock, but unable to unlock")
             eq_refl).
  - exact (exceptions_alone 1 WriteLock
             {| isShared := false; isResizable := false; isDetached := true;
                contents := [] |}
             {| isShared := false; isResizable := false; isDetached := true;
                contents := [] |}
             fresh fresh TypeError eq_refl).
Defined.

(** X7.  A call that returns has made its transition and nothing else:
    the guards let it through; [writeLock] found the word at [0] and left
    it at [-1]; [writeUnlock] found [-1] and left [0]; [readLock] and
    [readUnlock] found a word [w] other than [-1] and left [w + 1] and
    [w - 1] (as 32-bit values); the method's own flag is written and the
    other flag is kept. *)
Theorem returned_call_effect (fuel : nat) (m : method) (buf buf' : ArrayBuffer)
    (s s' : Semaphore) :
  snd (call fuel m buf s) = Returned buf' s' ->
  passes m s = true /\
  exists w, word buf = Some w /\
    match m with
    | WriteLock =>
        w = 0 /\ word buf' = Some (-1) /\
        s' = {| haveWriteLock := true; haveReadLock := haveReadLock s |}
    | WriteUnlock =>
        w = -1 /\ word buf' = Some 0 /\
        s' = {| haveWriteLock := false; haveReadLock := haveReadLock s |}
    | ReadLock =>
        w <> -1 /\ word buf' = Some (ToInt32 (w + 1)) /\
        s' = {| haveWriteLock := haveWriteLock s; haveReadLock := true |}
    | ReadUnlock =>
        w <> -1 /\ word buf' = Some (ToInt32 (w - 1)) /\
        s' = {| haveWriteLock := haveWriteLock s; haveReadLock := false |}
    end.
Proof.
  intros H.
  assert (Hfin : out_of_fuel (snd (call fuel m buf s)) = false) by now rewrite H.
  rewrite (call_finished _ _ _ _ Hfin) in H. revert H. unfold alone, passes.
  destruct (enter m s) as [e0|f] eqn:He; [discriminate|]. clear He.
  intros H. split; [reflexivity|]. revert H.
  destruct m; alone_cases buf; simpl; intros [= <- <-];
    eexists; (split; [reflexivity|]); subst;
    (split; [try reflexivity; try lia; try assumption |]);
    (split; [word_known | reflexivity]).
Qed.

Lemma returned_call_effect_witness :
  passes ReadLock fresh = true /\
  exists w, word (buffer_at 5) = Some w /\
    w <> -1 /\ word (view_set (buffer_at 5) BYTE_OFFSET (5 + 1)) = Some (ToInt32 (w + 1)) /\
    holding_read = {| haveWriteLock := haveWriteLock fresh; haveReadLock := true |}.
Proof.
  exact (returned_call_effect 3 ReadLock (buffer_at 5)
           (view_set (buffer_at 5) BYTE_OFFSET (5 + 1)) fresh holding_read eq_refl).
Defined.

(** ** Several handles: readers, errors, flags *)

Lemma new_word (c : arrayBufferConstructor) (buf : ArrayBuffer) (s : Semaphore) :
  new c = inr (buf, s) -> word buf = Some 0 /\ s = fresh.
Proof. destruct c; intros [= <- <-]; split; reflexivity. Qed.

(** X8.  Handles of one lock made by [new], interleaved in any way: the
    word is never below [-1] nor above the number of handles; while it is
    [0] or more it is the number of read acquisitions outstanding, and no
    write acquisition is; while it is [-1] no read acquisition is
    outstanding.  So readers share the lock, and never with a writer. *)
Theorem word_counts_readers (c : arrayBufferConstructor) (buf : ArrayBuffer)
    (s : Semaphore) (n : nat) (sigma : system) :
  new c = inr (buf, s) ->
  Z.of_nat n < 2 ^ 31 ->
  reachable (initial buf s n) sigma ->
  exists w, word (memory sigma) = Some w /\
    -1 <= w <= Z.of_nat n /\
    (0 <= w -> readers sigma = w /\ writers sigma = 0) /\
    (w = -1 -> readers sigma = 0) /\
    (0 < readers sigma -> writers sigma = 0).
Proof.
  intros Hnew Hn Hreach. destruct (new_word _ _ _ Hnew) as [Hw ->].
  assert (Hlen : length (agents sigma) = n).
  { clear Hn Hw Hnew. unfold reachable in Hreach.
    remember (initial buf fresh n) as sigma0 eqn:E.
    assert (H0 : length (agents sigma0) = n)
      by (subst; simpl; apply length_replicate).
    clear E. induction Hreach as [|x y z Hxy _ IH]; [exact H0|].
    apply IH. destruct Hxy; simpl; rewrite length_insert;
      [exact H0 | destruct (notified _ _); [rewrite length_fmap|]; exact H0]. }
  destruct (reachable_inv _ _ Hreach (initial_inv buf n Hw Hn))
    as (_ & _ & w & Hw' & Hcases).
  pose proof (count_bounds read_outstanding (agents sigma)) as Hbr.
  fold (readers sigma) in Hbr. rewrite Hlen in Hbr.
  exists w. split; [exact Hw'|]. lia.
Qed.

Lemma word_counts_readers_witness :
  exists w, word (memory one_writer) = Some w /\
    -1 <= w <= Z.of_nat 2 /\
    (0 <= w -> readers one_writer = w /\ writers one_writer = 0) /\
    (w = -1 -> readers one_writer = 0) /\
    (0 < readers one_writer -> writers one_writer = 0).
Proof.
  apply (word_counts_readers SharedArrayBufferCtor
           (construct SharedArrayBufferCtor 4) fresh 2 one_writer).
  - reflexivity.
  - vm_compute. reflexivity.
  - exact one_writer_reachable.
Defined.

Lemma passes_flags (m : method) (s : Semaphore) :
  passes m s = true ->
  match m with
  | WriteLock | ReadLock => haveWriteLock s = false /\ haveReadLock s = false
  | WriteUnlock => haveWriteLock s = true /\ haveReadLock s = false
  | ReadUnlock => haveWriteLock s = false /\ haveReadLock s = true
  end.
Proof. destruct m, s as [[] []]; cbv; intros; try discriminate; auto. Qed.

(** X9.  Handles of one lock made by [new], each used only through the
    four methods: the corruption checks never fire.  Whatever the
    interleaving, the only exception an [Atomics] call of a method can
    end in is the [TypeError] of [Atomics.wait] on a buffer that is not
    shared. *)
Theorem no_corruption_reachable (c : arrayBufferConstructor) (buf : ArrayBuffer)
    (s : Semaphore) (n : nat) (sigma : system) (i : nat) (a : agent)
    (f : frame) (e : exn) :
  new c = inr (buf, s) ->
  Z.of_nat n < 2 ^ 31 ->
  reachable (initial buf s n) sigma ->
  agents sigma !! i = Some a -> doing a = Running f ->
  step (memory sigma) (handle a) f = Throw e ->
  e = TypeError /\ isShared (memory sigma) = false.
Proof.
  intros Hnew Hn Hreach Hi Hd Hstep. destruct (new_word _ _ _ Hnew) as [Hw ->].
  destruct (reachable_inv _ _ Hreach (initial_inv buf n Hw Hn))
    as (Hwf & _ & w & Hw' & Hcases).
  assert (Ha : wf_agent a) by (eapply Forall_lookup_1; eauto).
  unfold wf_agent in Ha. rewrite Hd in Ha. destruct Ha as [Hp Hl].
  pose proof (count_bounds read_outstanding (agents sigma)) as Hbr.
  pose proof (count_bounds write_outstanding (agents sigma)) as Hbw.
  unfold readers, writers in Hcases.
  pose proof (passes_flags _ _ Hp) as Hfl.
  destruct f; simpl in Hfl, Hl.
  - destruct (Z.eq_dec w 0) as [->|Hne];
      [rewrite (step_writeLock_hit _ _ Hw') in Hstep
      |rewrite (step_writeLock_miss _ _ _ Hw' Hne) in Hstep]; discriminate.
  - unfold step in Hstep. rewrite (wait_word _ _ _ Hw') in Hstep.
    destruct (isShared (memory sigma)); simpl in Hstep;
      [destruct (w =? ToInt32 lockState); discriminate|].
    injection Hstep as <-. auto.
  - erewrite step_notify in Hstep by (eauto; reflexivity). discriminate.
  - assert (Hwo : write_outstanding a = true).
    { unfold write_outstanding. rewrite Hd. apply Hfl. }
    pose proof (count_lookup _ _ _ _ Hi Hwo).
    assert (w = -1) as -> by lia.
    rewrite (step_writeUnlock_hit _ _ Hw') in Hstep. discriminate.
  - erewrite step_notify in Hstep by (eauto; reflexivity). discriminate.
  - destruct Hl as [Hl Hl1]. destruct (Z.eq_dec w lockState) as [->|Hne].
    + rewrite (step_readLock_hit _ _ _ Hw') in Hstep. discriminate.
    + destruct (Z.eq_dec w (-1)) as [->|Hne1].
      * rewrite (step_readLock_locked _ _ _ Hw' Hl Hl1) in Hstep. discriminate.
      * rewrite (step_readLock_miss _ _ _ _ Hw' Hne Hl Hne1) in Hstep. discriminate.
  - unfold step in Hstep. rewrite (wait_word _ _ _ Hw') in Hstep.
    destruct (isShared (memory sigma)); simpl in Hstep;
      [destruct (w =? ToInt32 WRITE_LOCKED); discriminate|].
    injection Hstep as <-. auto.
  - erewrite step_notify in Hstep by (eauto; reflexivity). discriminate.
  - destruct Hl as [Hl Hl1].
    assert (Hro : read_outstanding a = true).
    { unfold read_outstanding. rewrite Hd. apply Hfl. }
    pose proof (count_lookup _ _ _ _ Hi Hro).
    assert (Hw1 : w <> -1) by lia.
    destruct (Z.eq_dec w lockState) as [->|Hne].
    + rewrite (step_readUnlock_hit _ _ _ Hw') in Hstep. discriminate.
    + rewrite (step_readUnlock_miss _ _ _ _ Hw' Hne Hl Hw1) in Hstep. discriminate.
  - erewrite step_notify in Hstep by (eauto; reflexivity). discriminate.
Qed.

(** X10.  What the getters [haveWriteLock] and [haveReadLock] report
    between calls: of two handles of one lock that are both between calls,
    never both report a write lock, and never one a write lock while the
    other reports a read lock. *)
Theorem idle_getters_exclusive (c : arrayBufferConstructor) (buf : ArrayBuffer)
    (s : Semaphore) (n : nat) (sigma : system) (i j : nat) (ai aj : agent) :
  new c = inr (buf, s) ->
  Z.of_nat n < 2 ^ 31 ->
  reachable (initial buf s n) sigma ->
  i <> j ->
  agents sigma !! i = Some ai -> agents sigma !! j = Some aj ->
  doing ai = Idle -> doing aj = Idle ->
  ~ (haveWriteLock (handle ai) = true /\ haveWriteLock (handle aj) = true) /\
  ~ (haveWriteLock (handle ai) = true /\ haveReadLock (handle aj) = true).
Proof.
  intros Hnew Hn Hreach Hij Hi Hj Hdi Hdj. destruct (new_word _ _ _ Hnew) as [Hw ->].
  destruct (reachable_inv _ _ Hreach (initial_inv buf n Hw Hn))
    as (_ & _ & w & Hw' & Hcases).
  unfold readers, writers in Hcases.
  assert (Ewi : write_outstanding ai = haveWriteLock (handle ai))
    by (unfold write_outstanding; now rewrite Hdi).
  assert (Ewj : write_outstanding aj = haveWriteLock (handle aj))
    by (unfold write_outstanding; now rewrite Hdj).
  assert (Erj : read_outstanding aj = haveReadLock (handle aj))
    by (unfold read_outstanding; now rewrite Hdj).
  split.
  - rewrite <- Ewi, <- Ewj. eapply count_one; eauto. lia.
  - intros [Hwi Hrj]. rewrite <- Ewi in Hwi. rewrite <- Erj in Hrj.
    pose proof (count_lookup _ _ _ _ Hi Hwi).
    pose proof (count_lookup _ _ _ _ Hj Hrj). lia.
Qed.

Lemma waiting_unshared_reachable :
  reachable (initial (construct ArrayBufferCtor 4) fresh 2) waiting_unshared.
Proof.
  eapply rtc_l; [eapply (sys_call _ 0%nat _ WriteLock); reflexivity|].
  eapply rtc_l; [eapply (sys_run _ 0%nat); reflexivity|].
  eapply rtc_l; [eapply (sys_run _ 0%nat); reflexivity|].
  eapply rtc_l; [eapply (sys_call _ 1%nat _ WriteLock); reflexivity|].
  eapply rtc_l; [eapply (sys_run _ 1%nat); reflexivity|].
  apply rtc_refl.
Defined.

Lemma no_corruption_reachable_witness :
  TypeError = TypeError /\ isShared (memory waiting_unshared) = false.
Proof.
  apply (no_corruption_reachable ArrayBufferCtor (construct ArrayBufferCtor 4) fresh 2
           waiting_unshared 1 {| handle := fresh; doing := Running (writeLock_wait (-1)) |}
           (writeLock_wait (-1)) TypeError).
  - reflexivity.
  - vm_compute. reflexivity.
  - exact waiting_unshared_reachable.
  - reflexivity.
  - reflexivity.
  - reflexivity.
Defined.

Lemma writer_done_reachable :
  reachable (initial (construct SharedArrayBufferCtor 4) fresh 2) writer_done.
Proof.
  eapply rtc_l; [eapply (sys_call _ 0%nat _ WriteLock); reflexivity|].
  eapply rtc_l; [eapply (sys_run _ 0%nat); reflexivity|].
  eapply rtc_l; [eapply (sys_run _ 0%nat); reflexivity|].
  apply rtc_refl.
Defined.

Lemma idle_getters_exclusive_witness :
  ~ (haveWriteLock holding_write = true /\ haveWriteLock fresh = true) /\
  ~ (haveWriteLock holding_write = true /\ haveReadLock fresh = true).
Proof.
  apply (idle_getters_exclusive SharedArrayBufferCtor
           (construct SharedArrayBufferCtor 4) fresh 2 writer_done 0 1
           {| handle := holding_write; doing := Idle |}
           {| handle := fresh; doing := Idle |}).
  - reflexivity.
  - vm_compute. reflexivity.
  - exact writer_done_reachable.
  - discriminate.
  - reflexivity.
  - reflexivity.
  - reflexivity.
  - reflexivity.
Defined.

(** ** Several handles: nobody sleeps on a free lock *)

Lemma notified_not_Return (f : frame) (r : step_result) :
  (forall s, r <> Return s) -> notified f r = false.
Proof.
  intros H. unfold notified. destruct (access_of f), r; try reflexivity.
  now destruct (H s).
Qed.

Lemma step_Goto_wake (buf buf' : ArrayBuffer) (s : Semaphore) (f f' : frame) (w : Z) :
  word buf = Some w -> lockState_ok f ->
  step buf s f = Goto buf' f' ->
  is_notify f = false /\
  (is_notify f' = true \/ buf' = buf) /\
  wait_ok {| handle := s; doing := Running f' |}.
Proof.
  intros Hw Hl. pose proof (word_range _ _ Hw) as Hr.
  destruct f; simpl in Hl.
  - destruct (Z.eq_dec w 0) as [->|Hne];
      [rewrite (step_writeLock_hit _ _ Hw) | rewrite (step_writeLock_miss _ _ _ Hw Hne)];
      intros [= <- <-]; repeat split; auto; try exact I; lia.
  - unfold step. rewrite (wait_word _ _ _ Hw).
    destruct (negb (isShared buf)); [discriminate|].
    destruct (w =? ToInt32 lockState); [discriminate|].
    intros [= <- <-]. repeat split; auto.
  - erewrite step_notify by (eauto; reflexivity). discriminate.
  - destruct (Z.eq_dec w (-1)) as [->|Hne];
      [rewrite (step_writeUnlock_hit _ _ Hw) | rewrite (step_writeUnlock_miss _ _ _ Hw Hne)];
      [|discriminate].
    intros [= <- <-]. repeat split; auto.
  - erewrite step_notify by (eauto; reflexivity). discriminate.
  - destruct Hl as [Hl Hl1]. destruct (Z.eq_dec w lockState) as [->|Hne].
    + rewrite (step_readLock_hit _ _ _ Hw). intros [= <- <-]. repeat split; auto.
    + destruct (Z.eq_dec w (-1)) as [->|Hne1].
      * rewrite (step_readLock_locked _ _ _ Hw Hl Hl1). intros [= <- <-].
        repeat split; auto.
      * rewrite (step_readLock_miss _ _ _ _ Hw Hne Hl Hne1). intros [= <- <-].
        repeat split; auto.
  - unfold step. rewrite (wait_word _ _ _ Hw).
    destruct (negb (isShared buf)); [discriminate|].
    destruct (w =? ToInt32 WRITE_LOCKED); [discriminate|].
    intros [= <- <-]. repeat split; auto.
  - erewrite step_notify by (eauto; reflexivity). discriminate.
  - destruct Hl as [Hl Hl1]. destruct (Z.eq_dec w lockState) as [->|Hne].
    + rewrite (step_readUnlock_hit _ _ _ Hw). intros [= <- <-]. repeat split; auto.
    + destruct (Z.eq_dec w (-1)) as [->|Hne1].
      * rewrite (step_readUnlock_overridden _ _ _ Hw Hl Hl1). discriminate.
      * rewrite (step_readUnlock_miss _ _ _ _ Hw Hne Hl Hne1). intros [= <- <-].
        repeat split; auto.
  - erewrite step_notify by (eauto; reflexivity). discriminate.
Qed.

Lemma step_Suspend_wake (buf : ArrayBuffer) (s : Semaphore) (f f' : frame) (w : Z) :
  word buf = Some w ->
  wait_ok {| handle := s; doing := Running f |} ->
  step buf s f = Suspend f' ->
  is_notify f = false /\
  sleeper_ok w {| handle := s; doing := Sleeping f' |} /\
  wait_ok {| handle := s; doing := Sleeping f' |}.
Proof.
  intros Hw Hok Hs. destruct (step_Suspend _ _ _ _ Hs) as (Hm & _ & _).
  destruct f; simpl in Hok; unfold step in Hs;
    try rewrite (compareExchange_word _ _ _ _ Hw) in Hs;
    try rewrite (notify_word _ _ Hw) in Hs;
    try rewrite (wait_word _ _ _ Hw) in Hs;
    try discriminate;
    repeat (match type of Hs with
            | context [if ?c then _ else _] => destruct c eqn:?
            end; try discriminate).
  - injection Hs as <-. destruct Hok as [Hr Hl0].
    rewrite (ToInt32_small _ Hr) in *.
    match goal with H : (w =? lockState) = true |- _ => apply Z.eqb_eq in H; subst w end.
    repeat split; auto.
  - injection Hs as <-.
    match goal with H : (w =? ToInt32 WRITE_LOCKED) = true |- _ =>
      apply Z.eqb_eq in H; subst w end.
    repeat split; auto.
Qed.

Lemma step_Throw_wake (buf : ArrayBuffer) (s : Semaphore) (f : frame) (e : exn) (w : Z) :
  word buf = Some w -> step buf s f = Throw e -> is_notify f = false.
Proof.
  intros Hw Hs. destruct f; try reflexivity;
    erewrite step_notify in Hs by (eauto; reflexivity); discriminate.
Qed.

Lemma wake_no_sleeper (w : Z) (l : list agent) : Forall (sleeper_ok w) (wake <$> l).
Proof.
  apply Forall_fmap, Forall_forall. intros [s [|f|f]] _; exact I.
Qed.

Lemma wake_wait_ok (l : list agent) : Forall wait_ok l -> Forall wait_ok (wake <$> l).
Proof.
  intros H. apply Forall_fmap. eapply Forall_impl; [exact H|].
  intros [s [|f|f]]; unfold wait_ok, wake; simpl; auto.
  destruct f; auto; contradiction.
Qed.

Lemma pending_insert (l : list agent) (i : nat) (a a' : agent) :
  l !! i = Some a -> pending a = false ->
  (exists j x, l !! j = Some x /\ pending x = true) ->
  exists j x, <[i := a']> l !! j = Some x /\ pending x = true.
Proof.
  intros Hi Hp (j & x & Hj & Hx). exists j, x. split; [|exact Hx].
  destruct (Nat.eq_dec i j) as [->|Hne]; [congruence|].
  now rewrite list_lookup_insert_ne.
Qed.

Lemma sys_step_wake (sigma sigma' : system) :
  sys_step sigma sigma' -> lock_inv sigma -> wake_inv sigma -> wake_inv sigma'.
Proof.
  intros Hstep (Hwf & _ & w & Hw & _) (Hok & Hcases).
  destruct Hstep as [sigma i a m Hi Hd | sigma i a f Hi Hd]; unfold wake_inv; cbn [memory agents].
  - assert (Hnew : wait_ok (after_enter (handle a) (enter m (handle a)))
                   /\ sleeper_ok w (after_enter (handle a) (enter m (handle a)))).
    { destruct m, (handle a) as [[] []]; split; exact I. }
    split; [apply Forall_insert; [exact Hok | apply Hnew]|].
    assert (Hpa : pending a = false) by (unfold pending; now rewrite Hd).
    destruct Hcases as [Hpend | Hsl].
    + left. eapply pending_insert; eauto.
    + right. intros w' Hw'. rewrite Hw in Hw'. injection Hw' as <-.
      apply Forall_insert; [auto | apply Hnew].
  - destruct a as [s d]; simpl in Hd; subst d; cbn [handle].
    assert (Ha : wf_agent {| handle := s; doing := Running f |})
      by (eapply Forall_lookup_1; eauto).
    destruct Ha as [Hp Hl]; simpl in Hp, Hl.
    assert (Hoka : wait_ok {| handle := s; doing := Running f |})
      by (eapply Forall_lookup_1; eauto).
    destruct (step (memory sigma) s f) as [buf' f'|f'|s'|e] eqn:E.
    + destruct (step_Goto_wake _ _ _ _ _ _ Hw Hl E) as (Hn & Hhit & Hok').
      rewrite notified_not_Return by discriminate. cbn [memory_after after_step].
      split; [apply Forall_insert; [exact Hok | exact Hok']|].
      destruct Hhit as [Hhit | ->].
      * left. exists i, {| handle := s; doing := Running f' |}. split; [|exact Hhit].
        apply list_lookup_insert_eq. eapply lookup_lt_Some; eauto.
      * destruct Hcases as [Hpend | Hsl].
        -- left. eapply pending_insert; eauto.
        -- right. intros w' Hw'. apply Forall_insert; [auto | exact I].
    + destruct (step_Suspend_wake _ _ _ _ _ Hw Hoka E) as (Hn & Hsl' & Hok').
      rewrite notified_not_Return by discriminate. cbn [memory_after after_step].
      split; [apply Forall_insert; [exact Hok | exact Hok']|].
      destruct Hcases as [Hpend | Hsl].
      * left. eapply pending_insert; eauto.
      * right. intros w' Hw'. rewrite Hw in Hw'. injection Hw' as <-.
        apply Forall_insert; [auto | exact Hsl'].
    + assert (Hnot : notified f (Return s') = true).
      { apply step_Return in E. destruct f; try discriminate; reflexivity. }
      rewrite Hnot. cbn [memory_after after_step].
      split; [apply Forall_insert; [now apply wake_wait_ok | exact I]|].
      right. intros w' _. apply Forall_insert; [apply wake_no_sleeper | exact I].
    + pose proof (step_Throw_wake _ _ _ _ _ Hw E) as Hn.
      rewrite notified_not_Return by discriminate. cbn [memory_after after_step].
      split; [apply Forall_insert; [exact Hok | exact I]|].
      destruct Hcases as [Hpend | Hsl].
      * left. eapply pending_insert; eauto.
      * right. intros w' Hw'. apply Forall_insert; [auto | exact I].
Qed.

Lemma reachable_wake (sigma0 sigma : system) :
  reachable sigma0 sigma ->
  lock_inv sigma0 -> wake_inv sigma0 -> lock_inv sigma /\ wake_inv sigma.
Proof.
  induction 1 as [|x y z Hxy _ IH]; [auto|]. intros Hl Hk. apply IH.
  - eapply sys_step_inv; eauto.
  - eapply sys_step_wake; eauto.
Qed.

Lemma initial_wake (buf : ArrayBuffer) (s : Semaphore) (n : nat) :
  wake_inv (initial buf s n).
Proof.
  split; [apply Forall_replicate; exact I|].
  right. intros w _. apply Forall_replicate. exact I.
Qed.

(** X11.  No wake-up is lost.  Handles of one lock made by [new],
    interleaved in any way: whenever no handle is about to call [notify],
    a context asleep in [writeLock] finds the lock held (the word is not
    [0] and some acquisition is outstanding), and a context asleep in
    [readLock] finds it write locked (the word is [-1] and a write
    acquisition is outstanding).  So a sleeper always has a holder whose
    release will wake it. *)
Theorem no_lost_wakeup (c : arrayBufferConstructor) (buf : ArrayBuffer)
    (s : Semaphore) (n : nat) (sigma : system) (i : nat) (a : agent) (f : frame) :
  new c = inr (buf, s) ->
  Z.of_nat n < 2 ^ 31 ->
  reachable (initial buf s n) sigma ->
  Forall (fun x => pending x = false) (agents sigma) ->
  agents sigma !! i = Some a -> doing a = Sleeping f ->
  (method_of f = WriteLock /\ word (memory sigma) <> Some 0 /\
   1 <= writers sigma + readers sigma) \/
  (method_of f = ReadLock /\ word (memory sigma) = Some (-1) /\
   writers sigma = 1).
Proof.
  intros Hnew Hn Hreach Hnp Hi Hd. destruct (new_word _ _ _ Hnew) as [Hw ->].
  destruct (reachable_wake _ _ Hreach (initial_inv buf n Hw Hn) (initial_wake _ _ _))
    as [(_ & _ & w & Hw' & Hcases) (_ & Hk)].
  destruct Hk as [(j & x & Hj & Hx) | Hsl].
  - pose proof (Forall_lookup_1 _ _ _ _ Hnp Hj) as Hx'. simpl in Hx'. congruence.
  - pose proof (Forall_lookup_1 _ _ _ _ (Hsl w Hw') Hi) as Ha.
    unfold sleeper_ok in Ha. rewrite Hd in Ha. rewrite Hw'.
    pose proof (count_bounds read_outstanding (agents sigma)) as Hbr.
    pose proof (count_bounds write_outstanding (agents sigma)) as Hbw.
    unfold readers, writers in *.
    destruct (method_of f); try contradiction.
    + left. split; [reflexivity|]. split; [congruence | lia].
    + right. split; [reflexivity|]. subst w. split; [reflexivity | lia].
Qed.

Lemma reader_asleep_reachable :
  reachable (initial (construct SharedArrayBufferCtor 4) fresh 2) reader_asleep.
Proof.
  eapply rtc_l; [eapply (sys_call _ 0%nat _ WriteLock); reflexivity|].
  eapply rtc_l; [eapply (sys_run _ 0%nat); reflexivity|].
  eapply rtc_l; [eapply (sys_run _ 0%nat); reflexivity|].
  eapply rtc_l; [eapply (sys_call _ 1%nat _ ReadLock); reflexivity|].
  eapply rtc_l; [eapply (sys_run _ 1%nat); reflexivity|].
  eapply rtc_l; [eapply (sys_run _ 1%nat); reflexivity|].
  apply rtc_refl.
Defined.

Lemma no_lost_wakeup_witness :
  (method_of (readLock_compareExchange UNLOCKED) = WriteLock /\
   word (memory reader_asleep) <> Some 0 /\
   1 <= writers reader_asleep + readers reader_asleep) \/
  (method_of (readLock_compareExchange UNLOCKED) = ReadLock /\
   word (memory reader_asleep) = Some (-1) /\
   writers reader_asleep = 1).
Proof.
  apply (no_lost_wakeup SharedArrayBufferCtor
           (construct SharedArrayBufferCtor 4) fresh 2 reader_asleep 1
           {| handle := fresh; doing := Sleeping (readLock_compareExchange UNLOCKED) |}).
  - reflexivity.
  - vm_compute. reflexivity.
  - exact reader_asleep_reachable.
  - repeat constructor.
  - reflexivity.
  - reflexivity.
Defined.

(** ** The bytes the lock does not own *)

Lemma same_frame_refl (buf : ArrayBuffer) : same_frame buf buf.
Proof. repeat split. Qed.

Lemma same_frame_trans (b1 b2 b3 : ArrayBuffer) :
  same_frame b1 b2 -> same_frame b2 b3 -> same_frame b1 b3.
Proof. unfold same_frame. intros (?&?&?) (?&?&?). repeat split; congruence. Qed.

Lemma view_set_same_frame (buf : ArrayBuffer) (v w : Z) :
  word buf = Some w -> same_frame buf (view_set buf BYTE_OFFSET v).
Proof.
  intros H. split; [reflexivity|]. split; [eapply byteLength_view_set; eauto|].
  reflexivity.
Qed.

Lemma step_Goto_frame (buf buf' : ArrayBuffer) (s : Semaphore) (f f' : frame) :
  step buf s f = Goto buf' f' -> same_frame buf buf'.
Proof.
  destruct f; unfold step, Atomics_compareExchange, Atomics_wait, Atomics_notify;
    fold (word buf); destruct (word buf) as [w|] eqn:Hw; try discriminate;
    try (destruct (negb (isShared buf)); try discriminate);
    repeat (match goal with
            | |- context [if ?c then _ else _] => destruct c
            end; try discriminate);
    intros [= <- _];
    (apply same_frame_refl || (eapply view_set_same_frame; eauto)).
Qed.

Lemma exec_frame (fuel : nat) :
  forall (buf : ArrayBuffer) (s : Semaphore) (f : frame),
  same_frame buf (buffer_of (snd (exec fuel buf s f))).
Proof.
  induction fuel as [|fuel IH]; intros buf s f; [apply same_frame_refl|].
  rewrite exec_S. destruct (step buf s f) as [buf' f'| | |] eqn:E;
    try apply same_frame_refl.
  specialize (IH buf' s f'). destruct (exec fuel buf' s f') as [t o]. simpl in *.
  eapply same_frame_trans; [eapply step_Goto_frame; eauto | exact IH].
Qed.

Lemma call_frame (fuel : nat) (m : method) (buf : ArrayBuffer) (s : Semaphore) :
  same_frame buf (buffer_of (snd (call fuel m buf s))).
Proof.
  unfold call. destruct (enter m s); [apply same_frame_refl | apply exec_frame].
Qed.

Lemma calls_frame (fuel : nat) (ms : list method) :
  forall (buf : ArrayBuffer) (s : Semaphore),
  Forall (fun o => same_frame buf (buffer_of o)) (calls fuel ms buf s).
Proof.
  induction ms as [|m ms IH]; intros buf s; [constructor|].
  cbn [calls]. pose proof (call_frame fuel m buf s) as Hc.
  constructor; [exact Hc|].
  destruct (snd (call fuel m buf s)) as [b' s'|e b' s'| |]; simpl in Hc;
    try constructor;
    (eapply Forall_impl; [apply IH|]); intros o Ho;
    eapply same_frame_trans; eauto.
Qed.

Lemma sys_step_frame (sigma sigma' : system) :
  sys_step sigma sigma' -> same_frame (memory sigma) (memory sigma').
Proof.
  intros [sigma0 i a m Hi Hd | sigma0 i a f Hi Hd]; cbn [memory];
    [apply same_frame_refl|].
  destruct (step (memory sigma0) (handle a) f) eqn:E; cbn [memory_after];
    try apply same_frame_refl.
  eapply step_Goto_frame; eauto.
Qed.

(** X12.  The lock owns the first four bytes of its buffer and nothing
    else.  Whatever is called on a handle, and however handles of the
    buffer are interleaved, the buffer keeps its kind and its length, and
    every byte from offset four on keeps its value. *)
Theorem bytes_beyond_word_untouched (buf : ArrayBuffer) :
  (forall fuel ms s,
     Forall (fun o => same_frame buf (buffer_of o)) (calls fuel ms buf s)) /\
  (forall handles sigma,
     reachable {| memory := buf; agents := handles |} sigma ->
     same_frame buf (memory sigma)).
Proof.
  split.
  - intros fuel ms s. apply calls_frame.
  - intros handles sigma Hr.
    change buf with (memory {| memory := buf; agents := handles |}).
    induction Hr as [|x y z Hxy _ IH]; [apply same_frame_refl|].
    eapply same_frame_trans; [eapply sys_step_frame; eauto | exact IH].
Qed.

Lemma bytes_beyond_word_untouched_witness :
  same_frame (construct SharedArrayBufferCtor 4) (memory reader_asleep).
Proof.
  apply (proj2 (bytes_beyond_word_untouched (construct SharedArrayBufferCtor 4))
           (replicate 2 {| handle := fresh; doing := Idle |}) reader_asleep).
  exact reader_asleep_reachable.
Defined.

(** ** One handle alone, any order of calls *)

Lemma misuse_enter (m : method) (s : Semaphore) :
  misuse m s = true ->
  exists e, enter m s = inl e /\ kind_of e = Some ProtocolViolation.
Proof.
  destruct s as [[] []], m; simpl; intros H; try discriminate;
    eexists; (split; [reflexivity | reflexivity]).
Qed.

Lemma protocol_next_None (h : held) (m : method) (buf : ArrayBuffer) (s : Semaphore) :
  consistent h buf s -> protocol_next h m = None -> misuse m s = true.
Proof. destruct h, m; simpl; intros [_ ->] H; try discriminate; reflexivity. Qed.

Lemma lone_calls (fuel : nat) (ms : list method) :
  (2 <= fuel)%nat ->
  forall (h : held) (buf : ArrayBuffer) (s : Semaphore),
  consistent h buf s ->
  Forall2 (fun m o =>
             (exists buf' s', o = Returned buf' s') \/
             (exists e, o = Thrown e (buffer_of o) (handle_of o) /\
                        kind_of e = Some ProtocolViolation /\ misuse m (handle_of o) = true))
          ms (calls fuel ms buf s) /\
  exists h', consistent h' (final buf s (calls fuel ms buf s)).1
                           (final buf s (calls fuel ms buf s)).2.
Proof.
  intros Hfuel. induction ms as [|m ms IH]; intros h buf s Hc.
  - split; [constructor | exists h; exact Hc].
  - cbn [calls]. destruct (protocol_next h m) as [h'|] eqn:Hn.
    + destruct (protocol_call fuel h h' m buf s Hc Hn Hfuel) as (buf' & s' & Hcall & Hc').
      rewrite Hcall. destruct (IH h' buf' s' Hc') as [Hall Hfin]. split.
      * constructor; [left; eauto | exact Hall].
      * unfold final in *. rewrite last_cons.
        destruct (last (calls fuel ms buf' s')); [exact Hfin|]. exists h'. exact Hc'.
    + pose proof (protocol_next_None _ _ _ _ Hc Hn) as Hmis.
      destruct (misuse_enter _ _ Hmis) as (e & He & Hk).
      unfold call. rewrite He. cbn [snd].
      destruct (IH h buf s Hc) as [Hall Hfin]. split.
      * constructor; [|exact Hall]. right. exists e. simpl. auto.
      * unfold final in *. rewrite last_cons.
        destruct (last (calls fuel ms buf s)); [exact Hfin|]. exists h. exact Hc.
Qed.

(** X13.  A handle that is alone on its lock cannot block itself or
    corrupt the lock, in whatever order its methods are called.  From an
    unlocked word and clear flags, each call of any sequence either
    returns or is a misuse refused with a protocol violation; no call
    sleeps, and no corruption error, [RangeError] or [TypeError] is
    raised.  At the end the word and the flags agree: [0] with clear
    flags, [-1] with [haveWriteLock], or [1] with [haveReadLock]. *)
Theorem lone_handle_any_order (fuel : nat) (ms : list method)
    (buf : ArrayBuffer) (s : Semaphore) :
  word buf = Some 0 ->
  haveWriteLock s = false -> haveReadLock s = false ->
  (2 <= fuel)%nat ->
  Forall2 (fun m o =>
             (exists buf' s', o = Returned buf' s') \/
             (exists e, o = Thrown e (buffer_of o) (handle_of o) /\
                        kind_of e = Some ProtocolViolation /\ misuse m (handle_of o) = true))
          ms (calls fuel ms buf s) /\
  let (buf', s') := final buf s (calls fuel ms buf s) in
  (word buf' = Some 0 /\ s' = fresh) \/
  (word buf' = Some (-1) /\ s' = holding_write) \/
  (word buf' = Some 1 /\ s' = holding_read).
Proof.
  intros Hw Hhw Hhr Hfuel.
  destruct s as [hw hr]; simpl in Hhw, Hhr; subst hw hr.
  destruct (lone_calls fuel ms Hfuel Nothing buf fresh (conj Hw eq_refl)) as [Hall [h Hc]].
  split; [exact Hall|].
  change {| haveWriteLock := false; haveReadLock := false |} with fresh.
  destruct (final buf fresh (calls fuel ms buf fresh)) as [buf' s'].
  cbn [fst snd] in Hc. cbv beta iota.
  destruct h; cbn [consistent] in Hc; [left | right; left | right; right]; exact Hc.
Qed.

Lemma lone_handle_any_order_witness :
  let ms := [ReadUnlock; WriteLock; ReadLock; WriteLock; WriteUnlock; ReadLock] in
  let os := calls 2 ms (buffer_at 0) fresh in
  Forall2 (fun m o =>
             (exists buf' s', o = Returned buf' s') \/
             (exists e, o = Thrown e (buffer_of o) (handle_of o) /\
                        kind_of e = Some ProtocolViolation /\ misuse m (handle_of o) = true))
          ms os /\
  let (buf', s') := final (buffer_at 0) fresh os in
  (word buf' = Some 0 /\ s' = fresh) \/
  (word buf' = Some (-1) /\ s' = holding_write) \/
  (word buf' = Some 1 /\ s' = holding_read).
Proof.
  apply (lone_handle_any_order 2
           [ReadUnlock; WriteLock; ReadLock; WriteLock; WriteUnlock; ReadLock]
           (buffer_at 0) fresh);
    [reflexivity | reflexivity | reflexivity | apply le_n].
Defined.
